(** * steam-randomiser: a shallow embedding of [main.py]

    The program picks a random game (and optionally a random achievement)
    from a Steam library through the Steam Web API.  Every function of
    [main.py] is embedded below under its own name.

    - Python [str] is [string]; a non-ASCII code point is the sequence of
      its UTF-8 bytes.  The three regular expressions of the program only
      mention ASCII characters and the newline, so they match the same
      strings and capture the same groups on the byte sequence.
    - Python [int] is [Z]; Python [float] is a binary64 [float].  A
      percentage or a cutoff given as an integer (the default cutoff 80)
      is the float of the same value, to which Python converts it in the
      mixed arithmetic of [get_random_achievement].
    - The JSON documents of the four endpoints are values of [json], one
      constructor per documented shape; their entries (owned games,
      achievement statistics, schema entries) are records.  A schema
      dictionary, to which the program adds the key ["percent"], carries
      that key as an [option], from the delivered entry on.
    - Exceptions, the HTTP traffic, the random generator and the standard
      output are made explicit: a computation takes the interpreter state
      and returns a value or a raised exception together with the new
      state. *)

From Stdlib Require Import Bool List Arith ZArith Lia Ascii String Floats.
From Stdlib Require Import Permutation Sorted.
Import ListNotations.

Open Scope string_scope.

(** ** Strings *)

Definition newline : ascii := "010"%char.

Fixpoint string_forallb (f : ascii -> bool) (s : string) : bool :=
  match s with
  | EmptyString => true
  | String c s' => f c && string_forallb f s'
  end.

(** ** The fragment of Python's [re] the program uses *)

Module Re.

(** Character sets: the class [[0-9]] and the dot, which (no [DOTALL]
    flag being given) matches everything except a newline. *)
Inductive cset :=
| Digits
| Any.

Definition is_digit (c : ascii) : bool :=
  (48 <=? nat_of_ascii c)%nat && (nat_of_ascii c <=? 57)%nat.

Definition not_newline (c : ascii) : bool := negb (Ascii.eqb c newline).

Definition cset_mem (cs : cset) (c : ascii) : bool :=
  match cs with
  | Digits => is_digit c
  | Any => not_newline c
  end.

(** Pattern nodes, named after the opcodes of the [re] compiler. *)
Inductive node :=
| At_beginning                      (* ^ *)
| At_end                            (* $ *)
| Literal (c : ascii)               (* an ordinary character *)
| Repeat (n : nat) (cs : cset)      (* cs{n} *)
| Max_repeat (cs : cset)            (* cs*, greedy *)
| Group_open                        (* ( of group 1 *)
| Group_close.                      (* ) of group 1 *)

Definition pattern := list node.

Fixpoint literal (s : string) : pattern :=
  match s with
  | EmptyString => []
  | String c s' => Literal c :: literal s'
  end.

(** [$] without [MULTILINE]: the end of the string, or just before a
    newline that is the last character. *)
Definition at_end (s : string) : bool :=
  match s with
  | EmptyString => true
  | String c EmptyString => Ascii.eqb c newline
  | _ => false
  end.

(** A character consumed while group 1 is open is appended to it. *)
Definition push (opn : bool) (grp : string) (c : ascii) : string :=
  if opn then grp ++ String c EmptyString else grp.

(** Backtracking match of [p] at the current position.  [bol] tells
    whether the position is the beginning of the subject, [opn] whether
    group 1 is open, [grp] is the text group 1 has captured so far and
    [s] the rest of the subject.  The result is the text of group 1. *)
Fixpoint match_here (p : pattern) (bol opn : bool) (grp s : string)
  {struct p} : option string :=
  match p with
  | [] => Some grp
  | At_beginning :: p' => if bol then match_here p' bol opn grp s else None
  | At_end :: p' => if at_end s then match_here p' bol opn grp s else None
  | Group_open :: p' => match_here p' bol true EmptyString s
  | Group_close :: p' => match_here p' bol false grp s
  | Literal a :: p' =>
      match s with
      | String c s' =>
          if Ascii.eqb c a then match_here p' false opn (push opn grp c) s'
          else None
      | EmptyString => None
      end
  | Repeat n cs :: p' =>
      (fix rep (n : nat) (bol : bool) (grp s : string) {struct n} :=
         match n with
         | O => match_here p' bol opn grp s
         | S n' =>
             match s with
             | String c s' =>
                 if cset_mem cs c then rep n' false (push opn grp c) s'
                 else None
             | EmptyString => None
             end
         end) n bol grp s
  | Max_repeat cs :: p' =>
      (fix star (bol : bool) (grp s : string) {struct s} :=
         match s with
         | String c s' =>
             if cset_mem cs c then
               match star false (push opn grp c) s' with
               | Some r => Some r
               | None => match_here p' bol opn grp s
               end
             else match_here p' bol opn grp s
         | EmptyString => match_here p' bol opn grp s
         end) bol grp s
  end.

(** [re.match]: the pattern must match at the beginning of the subject. *)
Definition re_match (p : pattern) (s : string) : option string :=
  match_here p true false EmptyString s.

(** [re.search] tries every position from left to right, the end of the
    subject included, and keeps the first match. *)
Fixpoint search_from (p : pattern) (bol : bool) (s : string) : option string :=
  match match_here p bol false EmptyString s with
  | Some g => Some g
  | None =>
      match s with
      | EmptyString => None
      | String _ s' => search_from p false s'
      end
  end.

Definition re_search (p : pattern) (s : string) : option string :=
  search_from p true s.

End Re.

(** The three patterns of [parse_id_input]. *)

(** The pattern [^[0-9]{17}$]. *)
Definition re_steamid64 : Re.pattern :=
  [Re.At_beginning; Re.Repeat 17 Re.Digits; Re.At_end].

(** The pattern [profiles/], a group holding [[0-9]{17}], [$]. *)
Definition re_profile_url : Re.pattern :=
  (Re.literal "profiles/"
     ++ [Re.Group_open; Re.Repeat 17 Re.Digits; Re.Group_close; Re.At_end])%list.

(** The pattern [id/], a group holding a greedy run of dots, [$]. *)
Definition re_vanity_url : Re.pattern :=
  (Re.literal "id/"
     ++ [Re.Group_open; Re.Max_repeat Re.Any; Re.Group_close; Re.At_end])%list.

(** ** Data model *)

(** An entry of [response.games] of [GetOwnedGames]. *)
Record Game := mkGame {
  appid : Z;
  game_name : string;
  playtime_forever : Z
}.

(** An entry of [achievementpercentages.achievements]. *)
Record Stat := mkStat {
  stat_name : string;
  stat_percent : float
}.

(** An entry of [game.availableGameStats.achievements] as the schema
    endpoint delivers it; [schema_other] holds the fields the program
    never reads ([description], [icon], [hidden], ...), [schema_percent]
    the member ["percent"] when the delivered dictionary has one
    ([None]: it has none, as for the entries the Steam endpoint
    documents). *)
Record SchemaAchievement := mkSchemaAchievement {
  schema_name : string;
  schema_displayName : string;
  schema_other : list (string * string);
  schema_percent : option float
}.

(** The dictionary of a schema entry inside [get_random_achievement]:
    the delivered entry, whose key ["percent"] the enrichment loop may
    assign ([None]: the dictionary has no such key). *)
Record SchemaItem := mkSchemaItem {
  item_name : string;
  item_displayName : string;
  item_other : list (string * string);
  item_percent : option float
}.

Definition item_of_schema (a : SchemaAchievement) : SchemaItem :=
  mkSchemaItem (schema_name a) (schema_displayName a) (schema_other a)
    (schema_percent a).

(** ** Exceptions *)

Inductive exn :=
| ValueError (msg : string)
| IndexError (msg : string)
| KeyError (key : string)
| ZeroDivisionError (msg : string).

Definition exn_class (e : exn) : string :=
  match e with
  | ValueError _ => "ValueError"
  | IndexError _ => "IndexError"
  | KeyError _ => "KeyError"
  | ZeroDivisionError _ => "ZeroDivisionError"
  end.

Inductive result (A : Type) :=
| Ok (a : A)
| Raise (e : exn).
Arguments Ok {A} a.
Arguments Raise {A} e.

(** ** The outside world and the interpreter state *)

(** A value substituted into a URL template by [str.format]. *)
Inductive url_value :=
| UStr (s : string)
| UInt (z : Z).

(** An HTTP GET of [steam_api_call_json]: the path template and the
    substitution tokens, from which the URL is formatted. *)
Record request := mkRequest {
  template : string;
  url_tokens : list (string * url_value)
}.

(** The JSON bodies of the four endpoints, by shape. *)
Inductive json :=
| ResolveVanityURL (success : Z) (steamid : string)
| OwnedGames (games : list Game)
| GlobalAchievementPercentages (achievements : list Stat)
| SchemaForGame (achievements : list SchemaAchievement).

Record response := mkResponse {
  status_code : Z;
  body : json
}.

(** What the program prints: fixed texts, and the formatted lines with
    the values they are formatted from. *)
Inductive output :=
| Text (line : string)
| App_id_line (appid : Z)                (* "App ID: %s" *)
| Listing_line (displayName : string) (percent : float)  (* "%s: %.1f%%" *)
| Challenge_line (achievement : option string). (* "Challenge achievement: %s" *)

(** The world a run faces: the server's answer to each request, and the
    raw values the random generator will deliver, draw after draw. *)
Record world := mkWorld {
  http_get : request -> response;
  random_bits : nat -> nat
}.

Record state := mkState {
  requests : list request;   (* the GETs issued so far, oldest first *)
  draws : nat;               (* how many random values were drawn *)
  stdout : list output       (* what was printed so far, oldest first *)
}.

Definition initial_state : state := mkState [] 0 [].

Definition M (A : Type) : Type := state -> result A * state.

Definition ret {A} (a : A) : M A := fun st => (Ok a, st).

Definition raise {A} (e : exn) : M A := fun st => (Raise e, st).

Definition bind {A B} (m : M A) (k : A -> M B) : M B :=
  fun st =>
    match m st with
    | (Ok a, st') => k a st'
    | (Raise e, st') => (Raise e, st')
    end.

Notation "x <- m ;; k" := (bind m (fun x => k))
  (at level 61, m at next level, right associativity).
Notation "m ;;; k" := (bind m (fun _ => k))
  (at level 61, right associativity).

Definition print (o : output) : M unit :=
  fun st => (Ok tt, mkState (requests st) (draws st) (stdout st ++ [o])%list).

Fixpoint for_each {A} (l : list A) (body : A -> M unit) : M unit :=
  match l with
  | [] => ret tt
  | x :: l' => body x ;;; for_each l' body
  end.

Section Program.

Variable w : world.

(** [requests.get(url)] *)
Definition requests_get (r : request) : M response :=
  fun st =>
    (Ok (http_get w r), mkState (requests st ++ [r])%list (draws st) (stdout st)).

(** [random.choice(seq)]: [IndexError] on an empty sequence, otherwise
    the element at an index below [len(seq)] drawn from the generator. *)
Definition random_choice {A} (seq : list A) : M A :=
  fun st =>
    match nth_error seq (random_bits w (draws st) mod List.length seq) with
    | Some x => (Ok x, mkState (requests st) (S (draws st)) (stdout st))
    | None => (Raise (IndexError "Cannot choose from an empty sequence"), st)
    end.

(** ** [main.py] *)

Definition steam_api_call_json (template : string)
    (url_tokens : list (string * url_value)) : M json :=
  r <- requests_get (mkRequest template url_tokens) ;;
  if negb (status_code r =? 200)%Z then
    raise (ValueError "Status code of request is not 200.")
  else ret (body r).

Definition get_id_from_vanity (key vanity : string) : M string :=
  let template :=
    "ISteamUser/ResolveVanityURL/v0001/?key={key}&vanityurl={vanity}" in
  json <- steam_api_call_json template
            [("key", UStr key); ("vanity", UStr vanity)] ;;
  match json with
  | ResolveVanityURL success steamid =>
      if negb (success =? 1)%Z then
        raise (ValueError "Failed to get Steam ID from vanity name.")
      else ret steamid
  | _ => raise (KeyError "success")
  end.

Definition get_owned_games (key steam_id : string) : M (list Game) :=
  let template :=
    "IPlayerService/GetOwnedGames/v0001/?key={key}&steamid={id}&include_appinfo=1" in
  json <- steam_api_call_json template
            [("key", UStr key); ("id", UStr steam_id)] ;;
  match json with
  | OwnedGames games => ret games
  | _ => raise (KeyError "games")
  end.

Definition parse_id_input (id_input api_key : string) : M string :=
  match Re.re_match re_steamid64 id_input with
  | Some _ => ret id_input
  | None =>
      match Re.re_search re_profile_url id_input with
      | Some group1 => ret group1
      | None =>
          match Re.re_search re_vanity_url id_input with
          | Some vanity => get_id_from_vanity api_key vanity
          | None => get_id_from_vanity api_key id_input
          end
      end
  end.

(** The candidate set of [pick_random_game] (its [selectable_games]). *)
Definition selectable_games (all_games : bool) (time_played : Z)
    (owned_games : list Game) : list Game :=
  if all_games then owned_games
  else filter (fun game => (playtime_forever game <=? time_played)%Z)
         owned_games.

Definition pick_random_game (key user_id : string) (all_games : bool)
    (time_played : Z) : M Game :=
  steam_id <- parse_id_input user_id key ;;
  owned_games <- get_owned_games key steam_id ;;
  random_choice (selectable_games all_games time_played owned_games).

Definition get_achievement_stats_for_game (game_id : Z) : M (list Stat) :=
  let template :=
    "ISteamUserStats/GetGlobalAchievementPercentagesForApp/v0002/?gameid={game_id}" in
  json <- steam_api_call_json template [("game_id", UInt game_id)] ;;
  match json with
  | GlobalAchievementPercentages achievements => ret achievements
  | _ => raise (KeyError "achievementpercentages")
  end.

Definition get_schema_for_game (key : string) (app_id : Z) : M json :=
  let template :=
    "ISteamUserStats/GetSchemaForGame/v2/?key={key}&appid={app_id}" in
  steam_api_call_json template [("key", UStr key); ("app_id", UInt app_id)].

(** [100.0 / x] on floats: Python raises where IEEE 754 would deliver
    an infinity. *)
Definition truediv (x y : float) : M float :=
  if (y =? 0)%float then raise (ZeroDivisionError "float division by zero")
  else ret (x / y)%float.

(** The list comprehension of [get_random_achievement]: the statistics
    whose normalised percentage reaches the cutoff. *)
Definition candidates_of (achievements : list Stat) (modifier cutoff : float)
    : list Stat :=
  filter (fun achievement =>
            (cutoff <=? stat_percent achievement * modifier)%float)
    achievements.

End Program.

(** *** The enrichment loops

    The two lists are the local variables [achievements] and
    [schema_achievements]; every element is a dictionary of its own (the
    two lists come from two parsed JSON documents), so the assignment
    [item["percent"] = ...] replaces the field of the one element at the
    position the outer loop has reached. *)

Record locals := mkLocals {
  loc_achievements : list Stat;
  loc_schema_achievements : list SchemaItem
}.

Fixpoint set_nth {A} (i : nat) (x : A) (l : list A) : list A :=
  match l, i with
  | [], _ => []
  | _ :: l', O => x :: l'
  | y :: l', S i' => y :: set_nth i' x l'
  end.

(** [item["percent"] = stat["percent"]] for the item at position [i]. *)
Definition assign_percent (i : nat) (stat : Stat) (l : locals) : locals :=
  match nth_error (loc_schema_achievements l) i with
  | Some item =>
      mkLocals (loc_achievements l)
        (set_nth i
           (mkSchemaItem (item_name item) (item_displayName item)
              (item_other item) (Some (stat_percent stat)))
           (loc_schema_achievements l))
  | None => l
  end.

(** The inner loop over the statistics that remain to be visited, for
    the item at position [i]; it stops at the first equal name. *)
Fixpoint enrich_item (i : nat) (stats : list Stat) (l : locals) : locals :=
  match stats with
  | [] => l
  | stat :: stats' =>
      match nth_error (loc_schema_achievements l) i with
      | Some item =>
          if (item_name item =? stat_name stat)%string
          then assign_percent i stat l
          else enrich_item i stats' l
      | None => l
      end
  end.

(** The outer loop, from position [i] on, with [n] items left. *)
Fixpoint enrich_from (i n : nat) (l : locals) : locals :=
  match n with
  | O => l
  | S n' => enrich_from (S i) n' (enrich_item i (loc_achievements l) l)
  end.

Definition enrich (l : locals) : locals :=
  enrich_from 0 (List.length (loc_schema_achievements l)) l.

(** *** The sorted listing *)

(** The key function of [sorted]: [tup["percent"]]. *)
Definition percent_key (item : SchemaItem) : M float :=
  match item_percent item with
  | Some p => ret p
  | None => raise (KeyError "percent")
  end.

(** [sorted] computes the key of every element first, in order. *)
Fixpoint sort_keys (l : list SchemaItem) : M (list (float * SchemaItem)) :=
  match l with
  | [] => ret []
  | item :: l' =>
      k <- percent_key item ;;
      ks <- sort_keys l' ;;
      ret ((k, item) :: ks)
  end.

(** Insertion after the elements that are not greater, with [<] only, as
    [sorted] compares. *)
Fixpoint insert_by_key (x : float * SchemaItem)
    (l : list (float * SchemaItem)) : list (float * SchemaItem) :=
  match l with
  | [] => [x]
  | y :: l' =>
      if (fst x <? fst y)%float then x :: y :: l'
      else y :: insert_by_key x l'
  end.

(** [sorted(l, key=...)]: a stable sort.  Whenever the keys are totally
    ordered by [<] (no NaN among them) the result of a stable sort is
    unique, so this is the list Python builds. *)
Definition sorted (l : list SchemaItem) : M (list SchemaItem) :=
  ks <- sort_keys l ;;
  ret (map snd (fold_left (fun acc x => insert_by_key x acc) ks [])).

(** [s.encode("ascii", errors='replace').decode("ascii")]: every
    non-ASCII code point becomes a question mark.  On UTF-8 bytes: a lead
    byte becomes the question mark, continuation bytes disappear. *)
Fixpoint ascii_replace (s : string) : string :=
  match s with
  | EmptyString => EmptyString
  | String c s' =>
      let n := nat_of_ascii c in
      if (n <? 128)%nat then String c (ascii_replace s')
      else if (n <? 192)%nat then ascii_replace s'
      else String "?" (ascii_replace s')
  end.

Definition print_listing_line (achievement : SchemaItem) : M unit :=
  p <- percent_key achievement ;;
  print (Listing_line (ascii_replace (item_displayName achievement)) p).

(** The last loop of [get_random_achievement]: it has no [break], so
    the last item with the name wins. *)
Definition find_display_name (schema_achievements : list SchemaItem)
    (random_cheevo_name : string) : string :=
  fold_left
    (fun found_display_name item =>
       if (item_name item =? random_cheevo_name)%string
       then item_displayName item
       else found_display_name)
    schema_achievements "".

(** The command line of [main], parsed. *)
Record args := mkArgs {
  user_id : string;
  all_games : bool;
  time_played : Z;
  achievement : bool
}.

Section Achievements.

Variable w : world.

Definition get_random_achievement (key : string) (appid : Z) (cutoff : float)
    : M (option string) :=
  achievements <- get_achievement_stats_for_game w appid ;;
  if (List.length achievements =? 0)%nat then
    print (Text "No achievements for this game") ;;;
    ret None
  else
    schema <- get_schema_for_game w key appid ;;
    schema_achievements <-
      match schema with
      | SchemaForGame l => ret (map item_of_schema l)
      | _ => raise (KeyError "game")
      end ;;
    first <-
      match nth_error achievements 0 with
      | Some a => ret a
      | None => raise (IndexError "list index out of range")
      end ;;
    modifier <- truediv 100%float (stat_percent first) ;;
    let candidates := candidates_of achievements modifier cutoff in
    let schema_achievements :=
      loc_schema_achievements
        (enrich (mkLocals achievements schema_achievements)) in
    sorted_by_unlocked <- sorted schema_achievements ;;
    for_each (rev sorted_by_unlocked) print_listing_line ;;;
    chosen <- random_choice w candidates ;;
    let random_cheevo_name := stat_name chosen in
    ret (Some (find_display_name schema_achievements random_cheevo_name)).

(** [main], from the parsed arguments and the key read from the file. *)
Definition main (a : args) (key : string) : M unit :=
  game <- pick_random_game w key (user_id a) (all_games a) (time_played a) ;;
  print (App_id_line (appid game)) ;;;
  print (Text (game_name game)) ;;;
  if achievement a then
    r <- get_random_achievement key (appid game) 80%float ;;
    print (Challenge_line r)
  else ret tt.

End Achievements.

(** * Definitions used by the statements *)

(** ** Strings and patterns *)

Definition nl : string := String newline EmptyString.

(** The last character of a string is a newline. *)
Fixpoint ends_with_newline (s : string) : bool :=
  match s with
  | EmptyString => false
  | String c EmptyString => Ascii.eqb c newline
  | String _ s' => ends_with_newline s'
  end.

(** The text group 1 holds after the characters of [d] were consumed. *)
Definition pushes (opn : bool) (grp d : string) : string :=
  if opn then grp ++ d else grp.

(** A tail of the pattern that closes the match: the group (if open) is
    closed and only [$] remains. *)
Definition closes (k : Re.pattern) : Prop :=
  forall b o g t, Re.match_here k b o g t = if Re.at_end t then Some g else None.

(** Literal text at the head of a pattern. *)
Fixpoint strip_prefix (l s : string) : option string :=
  match l with
  | EmptyString => Some s
  | String a l' =>
      match s with
      | String c s' => if Ascii.eqb c a then strip_prefix l' s' else None
      | EmptyString => None
      end
  end.

(** [d] is 17 ASCII digits. *)
Definition is_steamid64 (d : string) : Prop :=
  String.length d = 17 /\ string_forallb Re.is_digit d = true.

(** [sub] occurs somewhere in [s]. *)
Fixpoint contains (sub s : string) : bool :=
  match strip_prefix sub s with
  | Some _ => true
  | None =>
      match s with
      | EmptyString => false
      | String _ s' => contains sub s'
      end
  end.

(** [s] ends in [profiles/] followed by 17 digits. *)
Fixpoint is_profile_url (s : string) : bool :=
  match strip_prefix "profiles/" s with
  | Some d => (String.length d =? 17)%nat && string_forallb Re.is_digit d
  | None => false
  end
  || match s with
     | EmptyString => false
     | String _ s' => is_profile_url s'
     end.

(** ** Requests and runs *)

(** The request [get_id_from_vanity] sends. *)
Definition vanity_request (key vanity : string) : request :=
  mkRequest "ISteamUser/ResolveVanityURL/v0001/?key={key}&vanityurl={vanity}"
    [("key", UStr key); ("vanity", UStr vanity)].

Definition owned_games_request (key steam_id : string) : request :=
  mkRequest
    "IPlayerService/GetOwnedGames/v0001/?key={key}&steamid={id}&include_appinfo=1"
    [("key", UStr key); ("id", UStr steam_id)].

(** The two requests of [get_random_achievement]. *)
Definition stats_request (appid : Z) : request :=
  mkRequest
    "ISteamUserStats/GetGlobalAchievementPercentagesForApp/v0002/?gameid={game_id}"
    [("game_id", UInt appid)].

Definition schema_request (key : string) (appid : Z) : request :=
  mkRequest "ISteamUserStats/GetSchemaForGame/v2/?key={key}&appid={app_id}"
    [("key", UStr key); ("app_id", UInt appid)].

(** The state once both have been answered. *)
Definition fetched (st : state) (key : string) (appid : Z) : state :=
  mkState (requests st ++ [stats_request appid; schema_request key appid])
    (draws st) (stdout st).

(** The enrichment in the spec's words: an entry whose name is the name
    of some statistic receives the percentage of the first such
    statistic; any other entry is left as it is. *)
Definition enriched_entry (stats : list Stat) (item : SchemaItem)
    : SchemaItem :=
  match find (fun stat => (item_name item =? stat_name stat)%string) stats with
  | Some stat =>
      mkSchemaItem (item_name item) (item_displayName item) (item_other item)
        (Some (stat_percent stat))
  | None => item
  end.

(** The steps of [get_random_achievement] that follow the enrichment:
    the sorted listing, the random selection among the candidates and the
    lookup of the display name. *)
Definition list_and_select (w : world) (items : list SchemaItem)
    (candidates : list Stat) : M (option string) :=
  sorted_by_unlocked <- sorted items ;;
  for_each (rev sorted_by_unlocked) print_listing_line ;;;
  chosen <- random_choice w candidates ;;
  ret (Some (find_display_name items (stat_name chosen))).

(** The line [print_listing_line] prints for an item with a percentage. *)
Definition listing_line (item : SchemaItem) : output :=
  Listing_line (ascii_replace (item_displayName item))
    (match item_percent item with Some p => p | None => 0%float end).

(** ** Binary64 constants *)

(** The number of bits [shr_fexp] drops. *)
Definition shift_of (m e : Z) : Z :=
  Z.max 0 (fexp prec emax (Zdigits2 m + e) - e)%Z.

(** The mantissa of the float 100, whose exponent is -46. *)
Definition m100 : positive := 7036874417766400.

(** Four units under it: the mantissa of 99.99999999999994. *)
Definition m_floor : positive := 7036874417766396.

(** The float 99.99999999999994, four units in the last place under
    100. *)
Definition cutoff_floor : float := 0x1.8fffffffffffcp+6%float.

(** The float nearest to 12.3. *)
Definition twelve_point_three : float := 0x1.899999999999ap+3%float.

(** ** A sample server and sample data *)

(** A server that answers every request with status 200: a vanity name
    resolves to a fixed identifier, and the library, the percentages and
    the schema are the given lists.  The random generator delivers 0, 1,
    2, ... *)
Definition sample_world (owned : list Game) (stats : list Stat)
    (sch : list SchemaAchievement) : world :=
  mkWorld
    (fun r =>
       if (template r =? template (vanity_request "" ""))%string then
         mkResponse 200 (ResolveVanityURL 1 "76561197960287930")
       else if (template r =? template (stats_request 0))%string then
         mkResponse 200 (GlobalAchievementPercentages stats)
       else if (template r =? template (schema_request "" 0))%string then
         mkResponse 200 (SchemaForGame sch)
       else mkResponse 200 (OwnedGames owned))
    (fun n => n).

Definition half_life : Game := mkGame 70 "Half-Life" 0.
Definition portal : Game := mkGame 400 "Portal" 120.
Definition team_fortress : Game := mkGame 440 "Team Fortress 2" 5000.

Definition stat_A : Stat := mkStat "A" 50.
Definition stat_B : Stat := mkStat "B" 10.

Definition schema_A : SchemaAchievement :=
  mkSchemaAchievement "A" "Alpha" [("hidden", "0")] None.
Definition schema_B : SchemaAchievement :=
  mkSchemaAchievement "B" "Beta" [] None.
Definition schema_C : SchemaAchievement :=
  mkSchemaAchievement "C" "Gamma" [] None.

(** An entry delivered with a percentage of its own. *)
Definition schema_D : SchemaAchievement :=
  mkSchemaAchievement "D" "Delta" [] (Some 5%float).

(** ** Definitions used by the further properties *)

(** [s] is 17 ASCII digits, as a test. *)
Definition is_steamid64b (s : string) : bool :=
  (String.length s =? 17)%nat && string_forallb Re.is_digit s.

(** A 7-bit character. *)
Definition is_ascii (c : ascii) : bool := (nat_of_ascii c <? 128)%nat.

(** A float that is not a NaN: only a NaN differs from itself. *)
Definition not_nan (x : float) : bool := (x =? x)%float.

(** In a printed listing, no line shows a percentage above the one of
    the line before it. *)
Definition descending_listing (lines : list output) : Prop :=
  forall before n1 p1 n2 p2 after,
    lines = (before ++ Listing_line n1 p1 :: Listing_line n2 p2 :: after)%list ->
    (p2 <=? p1)%float = true.

(** The order [sorted] leaves two neighbours in: the second is not below
    the first. *)
Definition key_le (x y : float * SchemaItem) : Prop :=
  (fst y <? fst x)%float = false.

(** The sort key of an item that has a percentage, and the item with
    its key as [sorted] holds it. *)
Definition key_of (item : SchemaItem) : float :=
  match item_percent item with Some p => p | None => 0%float end.

Definition keyed (item : SchemaItem) : float * SchemaItem :=
  (key_of item, item).

(** Sample command lines. *)
Definition args_game_only : args :=
  mkArgs "76561197960287930" true 0 false.
Definition args_with_achievement : args :=
  mkArgs "76561197960287930" true 0 true.

(** * Facts about strings *)

Lemma string_app_nil_r (s : string) : s ++ "" = s.
Proof. induction s as [|c s IH]; simpl; [reflexivity | now rewrite IH]. Qed.

Lemma string_app_assoc (s1 s2 s3 : string) :
  (s1 ++ s2) ++ s3 = s1 ++ s2 ++ s3.
Proof. induction s1 as [|c s1 IH]; simpl; [reflexivity | now rewrite IH]. Qed.

Lemma string_length_app (s1 s2 : string) :
  String.length (s1 ++ s2) = String.length s1 + String.length s2.
Proof. induction s1 as [|c s1 IH]; simpl; [reflexivity | now rewrite IH]. Qed.

Lemma string_forallb_app (f : ascii -> bool) (s1 s2 : string) :
  string_forallb f (s1 ++ s2) = string_forallb f s1 && string_forallb f s2.
Proof.
  induction s1 as [|c s1 IH]; simpl; [reflexivity|].
  now rewrite IH, andb_assoc.
Qed.

Lemma ends_with_newline_app (s t : string) :
  t <> "" -> ends_with_newline (s ++ t) = ends_with_newline t.
Proof.
  intros Ht. induction s as [|c s IH]; simpl; [reflexivity|].
  rewrite <- IH. destruct (s ++ t) eqn:E; [|reflexivity].
  destruct s; simpl in E; [contradiction | discriminate].
Qed.

Lemma ends_with_newline_nl (s : string) : ends_with_newline (s ++ nl) = true.
Proof. rewrite ends_with_newline_app by discriminate. reflexivity. Qed.

Lemma no_newline_end (s : string) :
  string_forallb Re.not_newline s = true -> ends_with_newline s = false.
Proof.
  induction s as [|c s IH]; simpl; [reflexivity|].
  intros H. apply andb_true_iff in H as [Hc Hs].
  destruct s; [|now apply IH].
  unfold Re.not_newline in Hc. now apply negb_true_iff in Hc.
Qed.

Lemma digit_not_newline (c : ascii) :
  Re.is_digit c = true -> Re.not_newline c = true.
Proof.
  unfold Re.is_digit, Re.not_newline. intros H.
  apply negb_true_iff, Ascii.eqb_neq. intros ->.
  now vm_compute in H.
Qed.

Lemma digits_no_newline (d : string) :
  string_forallb Re.is_digit d = true ->
  string_forallb Re.not_newline d = true.
Proof.
  induction d as [|c d IH]; simpl; [reflexivity|].
  intros H. apply andb_true_iff in H as [Hc Hd].
  now rewrite digit_not_newline, IH.
Qed.

(** * Facts about the matcher *)

Module ReFacts.
Import Re.

Lemma pushes_nil opn grp : pushes opn grp "" = grp.
Proof. destruct opn; simpl; [apply string_app_nil_r | reflexivity]. Qed.

Lemma pushes_cons opn grp c d :
  pushes opn (push opn grp c) d = pushes opn grp (String c d).
Proof.
  destruct opn; simpl; [|reflexivity].
  now rewrite string_app_assoc.
Qed.

Lemma at_end_iff (s : string) : at_end s = true <-> s = "" \/ s = nl.
Proof.
  destruct s as [|c [|c' s]]; simpl.
  - now intuition.
  - rewrite Ascii.eqb_eq. unfold nl. split.
    + intros ->. now right.
    + intros [H|H]; [discriminate | now inversion H].
  - split; [discriminate|]. unfold nl. intros [H|H]; discriminate.
Qed.

(** The unfolding equations of the two loops. *)

Lemma match_repeat_0 cs k b o g s :
  match_here (Repeat 0 cs :: k) b o g s = match_here k b o g s.
Proof. reflexivity. Qed.

Lemma match_repeat_S n cs k b o g c s :
  match_here (Repeat (S n) cs :: k) b o g (String c s) =
  if cset_mem cs c then match_here (Repeat n cs :: k) false o (push o g c) s
  else None.
Proof. reflexivity. Qed.

Lemma match_repeat_S_nil n cs k b o g :
  match_here (Repeat (S n) cs :: k) b o g "" = None.
Proof. reflexivity. Qed.

Lemma match_star_cons cs k b o g c s :
  match_here (Max_repeat cs :: k) b o g (String c s) =
  if cset_mem cs c then
    match match_here (Max_repeat cs :: k) false o (push o g c) s with
    | Some r => Some r
    | None => match_here k b o g (String c s)
    end
  else match_here k b o g (String c s).
Proof. reflexivity. Qed.

Lemma match_star_nil cs k b o g :
  match_here (Max_repeat cs :: k) b o g "" = match_here k b o g "".
Proof. reflexivity. Qed.

Lemma closes_end : closes [At_end].
Proof. intros b o g t. reflexivity. Qed.

Lemma closes_group_end : closes [Group_close; At_end].
Proof. intros b o g t. reflexivity. Qed.

Lemma repeat_sound n cs k (Hk : closes k) :
  forall b o g s r,
    match_here (Repeat n cs :: k) b o g s = Some r ->
    exists d, String.length d = n /\
              string_forallb (cset_mem cs) d = true /\
              r = pushes o g d /\ (s = d \/ s = d ++ nl).
Proof.
  induction n as [|n IH]; intros b o g s r H.
  - rewrite match_repeat_0, Hk in H.
    destruct (at_end s) eqn:E; [|discriminate].
    injection H as <-. exists "". rewrite pushes_nil.
    apply at_end_iff in E. simpl. intuition.
  - destruct s as [|c s]; [now rewrite match_repeat_S_nil in H|].
    rewrite match_repeat_S in H.
    destruct (cset_mem cs c) eqn:Ec; [|discriminate].
    apply IH in H as (d & Hlen & Hall & -> & Hs).
    exists (String c d). simpl. rewrite Ec, Hall, Hlen, pushes_cons.
    repeat split. destruct Hs as [->| ->]; [now left | now right].
Qed.

Lemma repeat_complete cs k (Hk : closes k) :
  forall d b o g,
    string_forallb (cset_mem cs) d = true ->
    match_here (Repeat (String.length d) cs :: k) b o g d
    = Some (pushes o g d).
Proof.
  induction d as [|c d IH]; intros b o g H.
  - simpl String.length. rewrite match_repeat_0, Hk. simpl.
    now rewrite pushes_nil.
  - simpl in H. apply andb_true_iff in H as [Hc Hd].
    simpl String.length. rewrite match_repeat_S, Hc, IH by assumption.
    now rewrite pushes_cons.
Qed.

(** The greedy run of dots followed by a closing tail takes the whole
    rest of the subject when it holds no newline. *)
Lemma star_complete k (Hk : closes k) :
  forall v b o g,
    string_forallb not_newline v = true ->
    match_here (Max_repeat Any :: k) b o g v = Some (pushes o g v).
Proof.
  induction v as [|c v IH]; intros b o g H.
  - rewrite match_star_nil, Hk. simpl. now rewrite pushes_nil.
  - simpl in H. apply andb_true_iff in H as [Hc Hv].
    rewrite match_star_cons. simpl cset_mem. rewrite Hc, IH by assumption.
    now rewrite pushes_cons.
Qed.

Lemma strip_prefix_Some l : forall s t,
  strip_prefix l s = Some t <-> s = l ++ t.
Proof.
  induction l as [|a l IH]; intros s t; simpl.
  - split; [now intros [= ->] | now intros ->].
  - destruct s as [|c s]; [split; discriminate|].
    destruct (Ascii.eqb_spec c a) as [->|Hne].
    + rewrite IH. split; [now intros -> | now intros [= ->]].
    + split; [discriminate | intros [= -> _]; contradiction].
Qed.

Lemma literal_match a l k b g s :
  match_here (literal (String a l) ++ k)%list b false g s =
  match strip_prefix (String a l) s with
  | Some t => match_here k false false g t
  | None => None
  end.
Proof.
  revert a b s. induction l as [|a' l IH]; intros a b s.
  - simpl. destruct s as [|c s]; [reflexivity|].
    now destruct (Ascii.eqb c a).
  - change (literal (String a (String a' l)) ++ k)%list
      with (Literal a :: (literal (String a' l) ++ k))%list.
    destruct s as [|c s]; [reflexivity|].
    cbn [match_here strip_prefix]. destruct (Ascii.eqb c a); [|reflexivity].
    cbn [push]. apply IH.
Qed.

(** [re.search], one position at a time. *)
Lemma search_from_cons p b c s :
  search_from p b (String c s) =
  match match_here p b false "" (String c s) with
  | Some g => Some g
  | None => search_from p false s
  end.
Proof. reflexivity. Qed.

(** [re.search] skips a prefix at no position of which the pattern
    matches. *)
Lemma search_from_skip p (pre : string) : forall b s,
  (forall a t, pre = a ++ t -> t <> "" ->
     forall b', match_here p b' false "" (t ++ s) = None) ->
  search_from p b (pre ++ s)
  = search_from p (match pre with "" => b | _ => false end) s.
Proof.
  induction pre as [|c pre IH]; intros b s H; [reflexivity|].
  change (String c pre ++ s) with (String c (pre ++ s)).
  rewrite search_from_cons.
  pose proof (H "" (String c pre) eq_refl ltac:(discriminate) b) as H0.
  change (String c pre ++ s) with (String c (pre ++ s)) in H0.
  rewrite H0, IH.
  - now destruct pre.
  - intros a t -> Ht b'. apply (H (String c a) t eq_refl Ht).
Qed.

(** What [re.search] finds is a match at some position. *)
Lemma search_from_sound p : forall s b r,
  search_from p b s = Some r ->
  exists a t b', s = a ++ t /\ match_here p b' false "" t = Some r.
Proof.
  induction s as [|c s IH]; intros b r H.
  - simpl in H. destruct (match_here p b false "" "") eqn:E; [|discriminate].
    injection H as <-. now exists "", "", b.
  - rewrite search_from_cons in H.
    destruct (match_here p b false "" (String c s)) eqn:E.
    + injection H as <-. now exists "", (String c s), b.
    + apply IH in H as (a & t & b' & -> & Hm).
      now exists (String c a), t, b'.
Qed.

End ReFacts.

(** * The identifier resolver *)

Section Resolver.

Import Re ReFacts.

Lemma contains_false sub : forall s,
  contains sub s = false -> forall a t, s <> a ++ sub ++ t.
Proof.
  induction s as [|c s IH]; intros H a t E.
  - simpl in H. destruct (strip_prefix sub "") eqn:Es; [discriminate|].
    destruct a; simpl in E; [|discriminate].
    apply strip_prefix_Some in E. congruence.
  - cbn [contains] in H.
    destruct (strip_prefix sub (String c s)) eqn:Es; [discriminate|].
    destruct a as [|c' a].
    + simpl in E. apply strip_prefix_Some in E. congruence.
    + injection E as _ E. exact (IH H a t E).
Qed.

Lemma is_profile_url_false : forall s,
  is_profile_url s = false ->
  forall a d, is_steamid64 d -> s <> a ++ "profiles/" ++ d.
Proof.
  induction s as [|c s IH]; intros H a d [Hlen Hdig] E.
  - destruct a; discriminate.
  - cbn [is_profile_url] in H. apply orb_false_iff in H as [Hhere Hrest].
    destruct a as [|c' a].
    + change ("" ++ "profiles/" ++ d) with ("profiles/" ++ d) in E.
      apply strip_prefix_Some in E. rewrite E, Hlen, Hdig in Hhere.
      discriminate.
    + injection E as _ E. exact (IH Hrest a d (conj Hlen Hdig) E).
Qed.

(** The three patterns, at one position. *)

Lemma steamid64_match_sound s r :
  re_match re_steamid64 s = Some r ->
  exists d, is_steamid64 d /\ (s = d \/ s = d ++ nl).
Proof.
  unfold re_match, re_steamid64. intros H.
  change (match_here (Repeat 17 Digits :: [At_end]) true false "" s = Some r)
    in H.
  apply (repeat_sound _ _ _ closes_end) in H as (d & Hlen & Hdig & _ & Hs).
  exists d. now repeat split.
Qed.

Lemma profile_match_sound b s r :
  match_here re_profile_url b false "" s = Some r ->
  is_steamid64 r /\ (s = "profiles/" ++ r \/ s = "profiles/" ++ r ++ nl).
Proof.
  unfold re_profile_url. rewrite literal_match.
  destruct (strip_prefix "profiles/" s) as [t|] eqn:Et; [|discriminate].
  apply strip_prefix_Some in Et. subst s. intros H.
  change (match_here (Repeat 17 Digits :: [Group_close; At_end])
            false true "" t = Some r) in H.
  apply (repeat_sound _ _ _ closes_group_end) in H
    as (d & Hlen & Hdig & -> & Hs).
  simpl pushes. repeat split; try assumption.
  destruct Hs as [->| ->]; [now left | now right].
Qed.

Lemma profile_match_complete b d :
  is_steamid64 d ->
  match_here re_profile_url b false "" ("profiles/" ++ d) = Some d.
Proof.
  intros [Hlen Hdig]. unfold re_profile_url. rewrite literal_match.
  replace (strip_prefix "profiles/" ("profiles/" ++ d)) with (Some d)
    by (symmetry; now apply strip_prefix_Some).
  change (match_here (Repeat 17 Digits :: [Group_close; At_end])
            false true "" d = Some d).
  rewrite <- Hlen.
  now rewrite (repeat_complete _ _ closes_group_end) by exact Hdig.
Qed.

Lemma vanity_match_prefix b s r :
  match_here re_vanity_url b false "" s = Some r ->
  exists t, s = "id/" ++ t.
Proof.
  unfold re_vanity_url. rewrite literal_match.
  destruct (strip_prefix "id/" s) as [t|] eqn:Et; [|discriminate].
  apply strip_prefix_Some in Et. intros _. now exists t.
Qed.

Lemma vanity_match_complete b v :
  string_forallb not_newline v = true ->
  match_here re_vanity_url b false "" ("id/" ++ v) = Some v.
Proof.
  intros Hv. unfold re_vanity_url. rewrite literal_match.
  replace (strip_prefix "id/" ("id/" ++ v)) with (Some v)
    by (symmetry; now apply strip_prefix_Some).
  change (match_here (Max_repeat Any :: [Group_close; At_end])
            false true "" v = Some v).
  now rewrite (star_complete _ closes_group_end) by exact Hv.
Qed.

(** A string that ends in [profiles/] and 17 digits. *)

Lemma profile_url_not_steamid64 pre d :
  is_steamid64 d ->
  re_match re_steamid64 (pre ++ "profiles/" ++ d) = None.
Proof.
  intros [Hlen _].
  destruct (re_match _ _) as [r|] eqn:E; [|reflexivity].
  apply steamid64_match_sound in E as (d' & [Hlen' _] & Hs).
  assert (L : String.length (pre ++ "profiles/" ++ d)
              = String.length pre + 26).
  { rewrite !string_length_app, Hlen. simpl. lia. }
  destruct Hs as [Hs|Hs]; rewrite Hs in L;
    rewrite ?string_length_app, Hlen' in L; simpl in L; lia.
Qed.

Lemma profile_url_search pre d :
  is_steamid64 d ->
  re_search re_profile_url (pre ++ "profiles/" ++ d) = Some d.
Proof.
  intros Hd. unfold re_search. rewrite search_from_skip.
  - destruct Hd as [Hlen Hdig].
    assert (E : exists c d', d = String c d')
      by (destruct d; [discriminate | eauto]).
    destruct E as (c & d' & ->).
    change ("profiles/" ++ String c d')
      with (String "p" ("rofiles/" ++ String c d')).
    rewrite search_from_cons.
    change (String "p" ("rofiles/" ++ String c d'))
      with ("profiles/" ++ String c d').
    now rewrite profile_match_complete.
  - intros a t -> Ht b'.
    destruct (match_here _ _ _ _ _) as [r|] eqn:E; [|reflexivity].
    exfalso. apply profile_match_sound in E as ([Hlen' _] & Hs).
    destruct Hd as [Hlen Hdig].
    assert (L : String.length (t ++ "profiles/" ++ d)
                = String.length t + 26).
    { rewrite !string_length_app, Hlen. simpl. lia. }
    assert (Lt : 0 < String.length t) by (destruct t; simpl; [contradiction | lia]).
    destruct Hs as [Hs|Hs].
    + rewrite Hs, string_length_app, Hlen' in L. simpl in L. lia.
    + assert (N : ends_with_newline (t ++ "profiles/" ++ d) = false).
      { rewrite <- string_app_assoc, ends_with_newline_app
          by (destruct d; discriminate).
        now apply no_newline_end, digits_no_newline. }
      rewrite Hs, <- string_app_assoc, ends_with_newline_nl in N.
      discriminate.
Qed.

Lemma string_forallb_impl (f g : ascii -> bool) (s : string) :
  (forall c, f c = true -> g c = true) ->
  string_forallb f s = true -> string_forallb g s = true.
Proof.
  intros Hfg. induction s as [|c s IH]; simpl; [reflexivity|].
  intros H. apply andb_true_iff in H as [Hc Hs].
  now rewrite (Hfg c Hc), IH.
Qed.

Lemma prefix_split (l : string) : forall p y t,
  p ++ y = l ++ t -> String.length l <= String.length p ->
  exists x, p = l ++ x.
Proof.
  induction l as [|a l IH]; intros p y t E L.
  - now exists p.
  - destruct p as [|c p]; [simpl in L; lia|].
    injection E as -> E. simpl in L.
    destruct (IH p y t E ltac:(lia)) as [x ->]. now exists x.
Qed.

(** A string in which [id/] occurs, followed by text without newline. *)

Lemma vanity_url_not_steamid64 pre v :
  re_match re_steamid64 (pre ++ "id/" ++ v) = None.
Proof.
  destruct (re_match _ _) as [r|] eqn:E; [|reflexivity].
  exfalso. apply steamid64_match_sound in E as (d & [_ Hdig] & Hs).
  set (f := fun c => is_digit c || Ascii.eqb c newline).
  assert (Hf : string_forallb f (pre ++ "id/" ++ v) = true).
  { assert (Hd : string_forallb f d = true).
    { apply (string_forallb_impl is_digit); [|exact Hdig].
      intros c Hc. unfold f. now rewrite Hc. }
    destruct Hs as [->| ->]; [exact Hd|].
    rewrite string_forallb_app, Hd. reflexivity. }
  rewrite string_forallb_app in Hf. apply andb_true_iff in Hf as [_ Hf].
  discriminate Hf.
Qed.

Lemma vanity_url_not_profile pre v :
  string_forallb not_newline v = true ->
  is_profile_url (pre ++ "id/" ++ v) = false ->
  re_search re_profile_url (pre ++ "id/" ++ v) = None.
Proof.
  intros Hv Hp.
  destruct (re_search _ _) as [r|] eqn:E; [|reflexivity].
  exfalso. apply search_from_sound in E as (a & t & b' & Es & Hm).
  apply profile_match_sound in Hm as (Hr & [->| ->]).
  - exact (is_profile_url_false _ Hp a r Hr Es).
  - assert (N : ends_with_newline (pre ++ "id/" ++ v) = false).
    { rewrite ends_with_newline_app by discriminate.
      apply no_newline_end. simpl. exact Hv. }
    rewrite Es in N.
    replace (a ++ "profiles/" ++ r ++ nl) with ((a ++ "profiles/" ++ r) ++ nl)
      in N by now rewrite !string_app_assoc.
    rewrite ends_with_newline_nl in N. discriminate.
Qed.

Lemma vanity_url_search pre v :
  contains "id/" (pre ++ "id") = false ->
  string_forallb not_newline v = true ->
  re_search re_vanity_url (pre ++ "id/" ++ v) = Some v.
Proof.
  intros Hfirst Hv. unfold re_search. rewrite search_from_skip.
  - change ("id/" ++ v) with (String "i" ("d/" ++ v)).
    rewrite search_from_cons.
    change (String "i" ("d/" ++ v)) with ("id/" ++ v).
    now rewrite vanity_match_complete.
  - intros a t -> Ht b'.
    destruct (match_here _ _ _ _ _) as [r|] eqn:E; [|reflexivity].
    exfalso. apply vanity_match_prefix in E as [t' E].
    assert (L : String.length "id/" <= String.length (t ++ "id")).
    { rewrite string_length_app. destruct t; [contradiction | simpl; lia]. }
    destruct (prefix_split "id/" (t ++ "id") ("/" ++ v) t') as [x Hx];
      [now rewrite string_app_assoc | exact L |].
    apply (contains_false _ _ Hfirst a x).
    now rewrite string_app_assoc, Hx.
Qed.

End Resolver.

(** [get_id_from_vanity] issues exactly one request, the vanity
    resolution of its argument. *)
Lemma get_id_from_vanity_requests w key vanity st :
  requests (snd (get_id_from_vanity w key vanity st))
  = (requests st ++ [vanity_request key vanity])%list.
Proof.
  unfold get_id_from_vanity, steam_api_call_json, bind, requests_get.
  fold (vanity_request key vanity).
  destruct (http_get w (vanity_request key vanity)) as [code [success id|g|a|a]];
    simpl; destruct (code =? 200)%Z; simpl; try reflexivity.
  now destruct (success =? 1)%Z.
Qed.

Lemma get_id_from_vanity_ok w key vanity st steamid :
  http_get w (vanity_request key vanity)
    = mkResponse 200 (ResolveVanityURL 1 steamid) ->
  fst (get_id_from_vanity w key vanity st) = Ok steamid.
Proof.
  intros H.
  unfold get_id_from_vanity, steam_api_call_json, bind, requests_get.
  fold (vanity_request key vanity). now rewrite H.
Qed.

(** C6. For every input that ends in [profiles/] followed by exactly 17
    ASCII digits (such a string is never a bare 17-digit string),
    [parse_id_input] returns those 17 digits and leaves the interpreter
    state as it was: no request is sent, the vanity lookup is not
    invoked. *)
Theorem parse_id_input_profile_url w (pre d key : string) (st : state) :
  String.length d = 17 ->
  string_forallb Re.is_digit d = true ->
  parse_id_input w (pre ++ "profiles/" ++ d) key st = (Ok d, st).
Proof.
  intros Hlen Hdig. unfold parse_id_input.
  rewrite profile_url_not_steamid64 by now split.
  rewrite profile_url_search by now split.
  reflexivity.
Qed.

(** C7, amended.  For every input [pre ++ "id/" ++ v] in which [id/]
    does not occur before the end of [pre] (so [v] is the remainder after
    the first [id/]), whose remainder [v] holds no newline and which does
    not end in [profiles/] and 17 digits (it cannot be a bare 17-digit
    string), [parse_id_input] is the vanity lookup of [v]: it sends
    exactly one request, the vanity resolution of [v], and returns what
    the lookup yields. *)
Theorem parse_id_input_vanity_url w (pre v key : string) (st : state) :
  contains "id/" (pre ++ "id") = false ->
  string_forallb Re.not_newline v = true ->
  is_profile_url (pre ++ "id/" ++ v) = false ->
  parse_id_input w (pre ++ "id/" ++ v) key st
    = get_id_from_vanity w key v st
  /\ requests (snd (parse_id_input w (pre ++ "id/" ++ v) key st))
     = (requests st ++ [vanity_request key v])%list
  /\ forall steamid,
       http_get w (vanity_request key v)
         = mkResponse 200 (ResolveVanityURL 1 steamid) ->
       fst (parse_id_input w (pre ++ "id/" ++ v) key st) = Ok steamid.
Proof.
  intros Hfirst Hv Hp.
  assert (E : parse_id_input w (pre ++ "id/" ++ v) key st
              = get_id_from_vanity w key v st).
  { unfold parse_id_input.
    rewrite vanity_url_not_steamid64, vanity_url_not_profile by assumption.
    now rewrite vanity_url_search. }
  rewrite E. split; [reflexivity|]. split.
  - apply get_id_from_vanity_requests.
  - intros steamid H. now apply get_id_from_vanity_ok.
Qed.

(** * The game selector *)

Lemma random_choice_nil w {A} (st : state) :
  random_choice w (@nil A) st
  = (Raise (IndexError "Cannot choose from an empty sequence"), st).
Proof.
  unfold random_choice. now destruct (random_bits w (draws st) mod _)%nat.
Qed.

Lemma random_choice_ok w {A} (seq : list A) (st : state) :
  seq <> [] ->
  exists x,
    nth_error seq (random_bits w (draws st) mod List.length seq) = Some x
    /\ In x seq
    /\ random_choice w seq st
       = (Ok x, mkState (requests st) (S (draws st)) (stdout st)).
Proof.
  intros Hne. unfold random_choice.
  destruct (nth_error seq _) as [x|] eqn:E.
  - exists x. repeat split. now apply nth_error_In in E.
  - exfalso. apply nth_error_None in E.
    assert (0 < List.length seq)%nat
      by (destruct seq; [contradiction | simpl; lia]).
    pose proof (Nat.mod_upper_bound (random_bits w (draws st))
                  (List.length seq)). lia.
Qed.

Lemma random_choice_In w {A} (seq : list A) (st st' : state) (x : A) :
  random_choice w seq st = (Ok x, st') -> In x seq.
Proof.
  unfold random_choice. destruct (nth_error seq _) as [y|] eqn:E;
    [|discriminate].
  intros [= <- _]. now apply nth_error_In in E.
Qed.

(** Among playtimes that are not negative, [<= 0] selects the zeros. *)
Lemma filter_unplayed (owned_games : list Game) :
  Forall (fun g => (0 <= playtime_forever g)%Z) owned_games ->
  filter (fun g => (playtime_forever g <=? 0)%Z) owned_games
  = filter (fun g => (playtime_forever g =? 0)%Z) owned_games.
Proof.
  induction 1 as [|g l Hg _ IH]; simpl; [reflexivity|].
  rewrite IH.
  destruct (Z.leb_spec (playtime_forever g) 0),
           (Z.eqb_spec (playtime_forever g) 0); try reflexivity; lia.
Qed.

(** The run of [pick_random_game] once the identifier is resolved and
    the library fetched. *)
Lemma pick_random_game_run w key user_id all_games time_played
    st steam_id st1 owned_games st2 :
  parse_id_input w user_id key st = (Ok steam_id, st1) ->
  get_owned_games w key steam_id st1 = (Ok owned_games, st2) ->
  pick_random_game w key user_id all_games time_played st
  = random_choice w (selectable_games all_games time_played owned_games) st2.
Proof.
  intros H1 H2. unfold pick_random_game, bind. now rewrite H1, H2.
Qed.

(** C3. With the library fetched: when [all_games] is true the candidate
    set is the whole list; when it is false it is the list of the games
    with [playtime_forever <= time_played], in the library's order (for
    the threshold 0 and playtimes that are not negative: the games never
    played); the selection succeeds on a candidate set that is not empty,
    and a game the selector returns is one of the candidates. *)
Theorem pick_random_game_candidates w key user_id all_games time_played
    st steam_id st1 owned_games st2 :
  parse_id_input w user_id key st = (Ok steam_id, st1) ->
  get_owned_games w key steam_id st1 = (Ok owned_games, st2) ->
  let candidates := selectable_games all_games time_played owned_games in
  (all_games = true -> candidates = owned_games)
  /\ (all_games = false ->
        candidates
        = filter (fun g => (playtime_forever g <=? time_played)%Z) owned_games
        /\ forall g, In g candidates
                     <-> In g owned_games
                         /\ (playtime_forever g <= time_played)%Z)
  /\ (all_games = false -> time_played = 0%Z ->
        Forall (fun g => (0 <= playtime_forever g)%Z) owned_games ->
        candidates
        = filter (fun g => (playtime_forever g =? 0)%Z) owned_games)
  /\ (candidates <> [] ->
        exists game,
          In game candidates
          /\ pick_random_game w key user_id all_games time_played st
             = (Ok game, mkState (requests st2) (S (draws st2)) (stdout st2)))
  /\ (forall game st',
        pick_random_game w key user_id all_games time_played st
          = (Ok game, st') ->
        In game candidates).
Proof.
  intros H1 H2 candidates.
  rewrite (pick_random_game_run _ _ _ _ _ _ _ _ _ _ H1 H2).
  fold candidates. split; [|split; [|split; [|split]]].
  - intros ->. reflexivity.
  - intros ->. split; [reflexivity|].
    intros g. subst candidates. simpl. rewrite filter_In, Z.leb_le. tauto.
  - intros -> -> Hnn. subst candidates. simpl.
    now apply filter_unplayed.
  - intros Hne. destruct (random_choice_ok w candidates st2 Hne)
      as (game & _ & Hin & Hrun).
    now exists game.
  - intros game st' H. now apply random_choice_In in H.
Qed.

(** C1, amended.  With the library fetched, an empty candidate set makes
    [pick_random_game] fail with the [IndexError] of [random.choice]; the
    state is the one the fetch left (nothing is drawn).  The program has
    no exception of class [EmptySelectionError]. *)
Theorem pick_random_game_empty w key user_id all_games time_played
    st steam_id st1 owned_games st2 :
  parse_id_input w user_id key st = (Ok steam_id, st1) ->
  get_owned_games w key steam_id st1 = (Ok owned_games, st2) ->
  selectable_games all_games time_played owned_games = [] ->
  pick_random_game w key user_id all_games time_played st
    = (Raise (IndexError "Cannot choose from an empty sequence"), st2)
  /\ forall e : exn, exn_class e <> "EmptySelectionError".
Proof.
  intros H1 H2 Hempty. split.
  - rewrite (pick_random_game_run _ _ _ _ _ _ _ _ _ _ H1 H2), Hempty.
    apply random_choice_nil.
  - intros [m|m|k|m]; discriminate.
Qed.

(** * The enrichment loops *)

Lemma find_first {A} (f : A -> bool) (before : list A) (x : A)
    (after : list A) :
  f x = true -> (forall y, In y before -> f y = false) ->
  find f (before ++ x :: after) = Some x.
Proof.
  intros Hx. induction before as [|y before IH]; intros Hb; simpl.
  - now rewrite Hx.
  - rewrite (Hb y (or_introl eq_refl)). apply IH.
    intros z Hz. apply Hb. now right.
Qed.

Lemma set_nth_app {A} (done todo : list A) (old x : A) :
  set_nth (List.length done) x (done ++ old :: todo) = (done ++ x :: todo)%list.
Proof. induction done as [|y done IH]; simpl; [reflexivity | now rewrite IH]. Qed.

Lemma nth_error_middle {A} (done todo : list A) (x : A) :
  nth_error (done ++ x :: todo) (List.length done) = Some x.
Proof. induction done as [|y done IH]; simpl; [reflexivity | exact IH]. Qed.

Lemma enrich_item_spec (stats0 : list Stat) (done todo : list SchemaItem)
    (item : SchemaItem) : forall stats,
  enrich_item (List.length done) stats (mkLocals stats0 (done ++ item :: todo))
  = mkLocals stats0 (done ++ enriched_entry stats item :: todo).
Proof.
  induction stats as [|stat stats IH]; [reflexivity|].
  simpl enrich_item. rewrite nth_error_middle.
  unfold enriched_entry. simpl find.
  destruct (item_name item =? stat_name stat)%string.
  - unfold assign_percent. simpl. now rewrite nth_error_middle, set_nth_app.
  - exact IH.
Qed.

Lemma enrich_from_spec (stats : list Stat) : forall todo done,
  enrich_from (List.length done) (List.length todo)
    (mkLocals stats (done ++ todo))
  = mkLocals stats (done ++ map (enriched_entry stats) todo).
Proof.
  induction todo as [|item todo IH]; intros done; [reflexivity|].
  simpl enrich_from. rewrite enrich_item_spec.
  replace (S (List.length done))
    with (List.length (done ++ [enriched_entry stats item]))
    by (rewrite length_app; simpl; lia).
  replace (done ++ enriched_entry stats item :: todo)%list
    with ((done ++ [enriched_entry stats item]) ++ todo)%list
    by now rewrite <- app_assoc.
  rewrite IH. now rewrite <- app_assoc.
Qed.

(** The loops compute the enrichment of the spec's words, entry by
    entry, and hand the statistics back as they were. *)
Lemma enrich_spec (l : locals) :
  enrich l
  = mkLocals (loc_achievements l)
      (map (enriched_entry (loc_achievements l)) (loc_schema_achievements l)).
Proof.
  destruct l as [stats items]. unfold enrich. simpl.
  exact (enrich_from_spec stats items []).
Qed.

(** C5. The enrichment step alters no statistic; it keeps the number and
    the order of the schema entries and, in every entry, the name, the
    display name and the other fields; the [percent] of an entry becomes
    the percentage of the first statistic with the entry's name, and is
    left as it was when no statistic has that name. *)
Theorem enrich_frame (l : locals) :
  loc_achievements (enrich l) = loc_achievements l
  /\ List.length (loc_schema_achievements (enrich l))
     = List.length (loc_schema_achievements l)
  /\ forall i item,
       nth_error (loc_schema_achievements l) i = Some item ->
       exists item',
         nth_error (loc_schema_achievements (enrich l)) i = Some item'
         /\ item_name item' = item_name item
         /\ item_displayName item' = item_displayName item
         /\ item_other item' = item_other item
         /\ ((forall stat, In stat (loc_achievements l) ->
                stat_name stat <> item_name item) ->
             item' = item)
         /\ (forall before stat after,
               loc_achievements l = (before ++ stat :: after)%list ->
               stat_name stat = item_name item ->
               (forall s, In s before -> stat_name s <> item_name item) ->
               item_percent item' = Some (stat_percent stat)).
Proof.
  rewrite enrich_spec. simpl. split; [reflexivity|].
  split; [apply length_map|].
  intros i item Hi. exists (enriched_entry (loc_achievements l) item).
  split; [now apply map_nth_error|].
  unfold enriched_entry.
  destruct (find _ (loc_achievements l)) as [st|] eqn:Ef.
  - simpl. repeat split.
    + intros Hnone. apply find_some in Ef as [Hin Heq].
      apply String.eqb_eq in Heq. now elim (Hnone st Hin).
    + intros before stat after E Hname Hbefore. rewrite E in Ef.
      rewrite (find_first _ before stat after) in Ef.
      * now injection Ef as <-.
      * now rewrite Hname, String.eqb_refl.
      * intros s Hs. apply String.eqb_neq. intros Heq.
        now apply (Hbefore s Hs).
  - repeat split.
    intros before stat after E Hname _. exfalso.
    assert (Hin : In stat (loc_achievements l))
      by (rewrite E; apply in_elt).
    pose proof (find_none _ _ Ef stat Hin) as Hf. simpl in Hf.
    now rewrite Hname, String.eqb_refl in Hf.
Qed.

(** * The achievement selector *)

Section Selector.

Variable w : world.
Variables (key : string) (appid : Z) (cutoff : float).

(** With no achievement at all, nothing but the report happens. *)
Lemma get_random_achievement_none (st : state) :
  http_get w (stats_request appid)
    = mkResponse 200 (GlobalAchievementPercentages []) ->
  get_random_achievement w key appid cutoff st
  = (Ok None,
     mkState (requests st ++ [stats_request appid]) (draws st)
       (stdout st ++ [Text "No achievements for this game"])).
Proof.
  intros H.
  unfold get_random_achievement, get_achievement_stats_for_game,
    steam_api_call_json, bind, requests_get.
  fold (stats_request appid). now rewrite H.
Qed.

Variables (first : Stat) (rest : list Stat) (sch : list SchemaAchievement).

Let achievements : list Stat := first :: rest.

Hypothesis Hstats :
  http_get w (stats_request appid)
    = mkResponse 200 (GlobalAchievementPercentages achievements).
Hypothesis Hschema :
  http_get w (schema_request key appid) = mkResponse 200 (SchemaForGame sch).

(** The run up to the division: two requests, then [ZeroDivisionError]
    when the first percentage is zero. *)
Lemma get_random_achievement_zero (st : state) :
  (stat_percent first =? 0)%float = true ->
  get_random_achievement w key appid cutoff st
  = (Raise (ZeroDivisionError "float division by zero"), fetched st key appid).
Proof.
  intros Hz.
  unfold get_random_achievement, get_achievement_stats_for_game,
    get_schema_for_game, steam_api_call_json, bind, requests_get, truediv.
  fold (stats_request appid). rewrite Hstats. simpl.
  fold (schema_request key appid). rewrite Hschema. simpl.
  rewrite Hz. unfold raise, fetched. simpl.
  now rewrite <- app_assoc.
Qed.

(** The run up to the enrichment when the first percentage is not
    zero. *)
Lemma get_random_achievement_run (st : state) :
  (stat_percent first =? 0)%float = false ->
  get_random_achievement w key appid cutoff st
  = list_and_select w
      (map (enriched_entry achievements) (map item_of_schema sch))
      (candidates_of achievements (100 / stat_percent first) cutoff)
      (fetched st key appid).
Proof.
  intros Hnz.
  unfold get_random_achievement, get_achievement_stats_for_game,
    get_schema_for_game, steam_api_call_json, bind, requests_get, truediv.
  fold (stats_request appid). rewrite Hstats. simpl.
  fold (schema_request key appid). rewrite Hschema. simpl.
  rewrite Hnz. unfold ret at 1. rewrite enrich_spec. simpl.
  unfold list_and_select, bind, fetched. simpl.
  now rewrite <- app_assoc.
Qed.

End Selector.

(** ** The sorted listing *)

Lemma sort_keys_ok (l : list SchemaItem) (st : state) :
  Forall (fun item => item_percent item <> None) l ->
  exists ks, sort_keys l st = (Ok ks, st) /\ map snd ks = l.
Proof.
  induction 1 as [|item l Hitem _ (ks & IH & Hks)].
  - now exists [].
  - destruct (item_percent item) as [p|] eqn:Ep; [|contradiction].
    exists ((p, item) :: ks). simpl. unfold bind, percent_key.
    rewrite Ep. unfold ret at 1. rewrite IH. simpl. now rewrite Hks.
Qed.

Lemma sort_keys_KeyError (l : list SchemaItem) (st : state) :
  Exists (fun item => item_percent item = None) l ->
  sort_keys l st = (Raise (KeyError "percent"), st).
Proof.
  induction l as [|item l IH]; intros H; [now inversion H|].
  simpl. unfold bind, percent_key.
  destruct (item_percent item) as [p|] eqn:Ep; [|reflexivity].
  unfold ret at 1. rewrite IH; [reflexivity|].
  inversion H as [? ? H0|? ? H0]; subst; [congruence | assumption].
Qed.

Lemma insert_by_key_perm x l : Permutation (insert_by_key x l) (x :: l).
Proof.
  induction l as [|y l IH]; simpl; [reflexivity|].
  destruct (fst x <? fst y)%float; [reflexivity|].
  rewrite IH. apply perm_swap.
Qed.

Lemma insertion_sort_perm ks : forall acc,
  Permutation (fold_left (fun acc x => insert_by_key x acc) ks acc)
    (acc ++ ks).
Proof.
  induction ks as [|x ks IH]; intros acc; simpl.
  - now rewrite app_nil_r.
  - rewrite IH, insert_by_key_perm. apply Permutation_middle.
Qed.

(** [sorted] succeeds on items that all have a percentage, and returns
    them rearranged. *)
Lemma sorted_ok (l : list SchemaItem) (st : state) :
  Forall (fun item => item_percent item <> None) l ->
  exists s, sorted l st = (Ok s, st) /\ Permutation s l.
Proof.
  intros H. destruct (sort_keys_ok l st H) as (ks & Hk & Hm).
  eexists. unfold sorted, bind. rewrite Hk. split; [reflexivity|].
  rewrite <- Hm. apply Permutation_map. apply (insertion_sort_perm ks []).
Qed.

(** [sorted] raises [KeyError] as soon as one item has no percentage,
    before anything is printed. *)
Lemma sorted_KeyError (l : list SchemaItem) (st : state) :
  Exists (fun item => item_percent item = None) l ->
  sorted l st = (Raise (KeyError "percent"), st).
Proof.
  intros H. unfold sorted, bind. now rewrite sort_keys_KeyError.
Qed.

Lemma for_each_listing (l : list SchemaItem) : forall st,
  Forall (fun item => item_percent item <> None) l ->
  for_each l print_listing_line st
  = (Ok tt,
     mkState (requests st) (draws st) (stdout st ++ map listing_line l)).
Proof.
  induction l as [|item l IH]; intros st H.
  - simpl. unfold ret. rewrite app_nil_r. now destruct st.
  - inversion H as [|? ? Hitem Hl]; subst.
    simpl. unfold bind at 1. unfold print_listing_line, bind, percent_key.
    unfold listing_line at 1.
    destruct (item_percent item) as [p|] eqn:Ep; [|contradiction].
    unfold ret at 1, print at 1. rewrite IH by assumption. simpl.
    now rewrite <- app_assoc.
Qed.

(** An enriched entry lacks its percentage exactly when it was delivered
    without one and no statistic has its name. *)
Lemma enriched_entry_percent (stats : list Stat) (a : SchemaAchievement) :
  item_percent (enriched_entry stats (item_of_schema a)) = None
  <-> schema_percent a = None
      /\ forall s, In s stats -> stat_name s <> schema_name a.
Proof.
  unfold enriched_entry. simpl.
  destruct (find _ stats) as [s|] eqn:Ef; simpl.
  - split; [discriminate|]. intros [_ H]. apply find_some in Ef as [Hin Heq].
    apply String.eqb_eq in Heq. now elim (H s Hin).
  - split; [|now intros [H _]]. intros H. split; [exact H|]. intros s Hs Heq.
    pose proof (find_none _ _ Ef s Hs) as Hf. simpl in Hf.
    now rewrite Heq, String.eqb_refl in Hf.
Qed.

(** The last loop: the display name of the last item with the name, the
    empty string when there is none. *)
Lemma find_display_name_none (items : list SchemaItem) (name : string) :
  (forall item, In item items -> item_name item <> name) ->
  find_display_name items name = "".
Proof.
  unfold find_display_name. generalize "".
  induction items as [|item items IH]; intros acc H; [reflexivity|].
  simpl. destruct (String.eqb_spec (item_name item) name) as [E|_].
  - now elim (H item (or_introl eq_refl)).
  - apply IH. intros i Hi. apply H. now right.
Qed.

Lemma find_display_name_some (items : list SchemaItem) (name : string) :
  (exists item, In item items /\ item_name item = name) ->
  exists before item after,
    items = (before ++ item :: after)%list
    /\ item_name item = name
    /\ (forall i, In i after -> item_name i <> name)
    /\ find_display_name items name = item_displayName item.
Proof.
  unfold find_display_name. generalize "".
  induction items as [|item items IH]; intros acc (x & Hin & Hx);
    [contradiction|].
  simpl.
  assert (D : (exists y, In y items /\ item_name y = name)
              \/ forall i, In i items -> item_name i <> name).
  { clear. induction items as [|y items [(z & Hz & Hn)|IH]].
    - now right.
    - left. exists z. split; [now right | exact Hn].
    - destruct (String.eqb_spec (item_name y) name) as [E|N].
      + left. exists y. split; [now left | exact E].
      + right. intros i [<-|Hi]; [exact N | now apply IH]. }
  destruct D as [Hlater|Hnone].
  - destruct (IH (if (item_name item =? name)%string
                  then item_displayName item else acc) Hlater)
      as (before & it & after & -> & Hn & Ha & Hf).
    exists (item :: before), it, after. now repeat split.
  - destruct Hin as [<-|Hin]; [|now elim (Hnone x Hin)].
    exists [], item, items. rewrite Hx, String.eqb_refl.
    repeat split; try assumption.
    fold (find_display_name items name).
    generalize (item_displayName item). clear -Hnone.
    induction items as [|y items IH]; intros acc; [reflexivity|].
    simpl. destruct (String.eqb_spec (item_name y) name) as [E|_].
    + now elim (Hnone y (or_introl eq_refl)).
    + apply IH. intros i Hi. apply Hnone. now right.
Qed.

Lemma list_and_select_KeyError w items candidates st :
  Exists (fun item => item_percent item = None) items ->
  list_and_select w items candidates st = (Raise (KeyError "percent"), st).
Proof.
  intros H. unfold list_and_select, bind. now rewrite sorted_KeyError.
Qed.

Lemma list_and_select_listed w items candidates st :
  Forall (fun item => item_percent item <> None) items ->
  exists s,
    Permutation s items
    /\ list_and_select w items candidates st
       = (chosen <- random_choice w candidates ;;
          ret (Some (find_display_name items (stat_name chosen))))
           (mkState (requests st) (draws st)
              (stdout st ++ map listing_line (rev s))).
Proof.
  intros H. destruct (sorted_ok items st H) as (s & Hs & Hp).
  exists s. split; [exact Hp|].
  unfold list_and_select. unfold bind at 1. rewrite Hs.
  unfold bind at 1. rewrite for_each_listing; [reflexivity|].
  apply Forall_rev. revert H. apply Permutation_Forall. now symmetry.
Qed.

Lemma find_display_name_map (f : SchemaItem -> SchemaItem) items name :
  (forall i, item_name (f i) = item_name i) ->
  (forall i, item_displayName (f i) = item_displayName i) ->
  find_display_name (map f items) name = find_display_name items name.
Proof.
  intros Hn Hd. unfold find_display_name. generalize "".
  induction items as [|i items IH]; intros acc; [reflexivity|].
  simpl. now rewrite Hn, Hd, IH.
Qed.

Lemma enriched_entry_name stats i :
  item_name (enriched_entry stats i) = item_name i.
Proof. unfold enriched_entry. now destruct (find _ stats). Qed.

Lemma enriched_entry_displayName stats i :
  item_displayName (enriched_entry stats i) = item_displayName i.
Proof. unfold enriched_entry. now destruct (find _ stats). Qed.

Lemma enriched_every_percent stats sch :
  (forall a, In a sch ->
     schema_percent a <> None
     \/ exists s, In s stats /\ stat_name s = schema_name a) ->
  Forall (fun item => item_percent item <> None)
    (map (enriched_entry stats) (map item_of_schema sch)).
Proof.
  intros H. rewrite map_map. apply Forall_map, Forall_forall.
  intros a Ha E. apply enriched_entry_percent in E as [Ed Em].
  destruct (H a Ha) as [Hd|(s & Hs & Hn)]; [now elim Hd|].
  exact (Em s Hs Hn).
Qed.

Lemma enriched_all_percent stats sch :
  (forall a, In a sch ->
     exists s, In s stats /\ stat_name s = schema_name a) ->
  Forall (fun item => item_percent item <> None)
    (map (enriched_entry stats) (map item_of_schema sch)).
Proof.
  intros H. apply enriched_every_percent. intros a Ha. right. now apply H.
Qed.

Lemma enriched_some_missing stats sch :
  (exists a, In a sch /\ schema_percent a = None /\
     forall s, In s stats -> stat_name s <> schema_name a) ->
  Exists (fun item => item_percent item = None)
    (map (enriched_entry stats) (map item_of_schema sch)).
Proof.
  intros (a & Ha & Hd & Hn). rewrite map_map.
  apply Exists_map, Exists_exists.
  exists a. split; [exact Ha|]. now apply enriched_entry_percent.
Qed.

(** C4. When the percentages list fetched for the application is empty,
    [get_random_achievement] prints "No achievements for this game",
    returns [None], and the percentages request is the only request it
    has sent: the schema endpoint is not called. *)
Theorem get_random_achievement_no_achievements w key appid cutoff st :
  http_get w (stats_request appid)
    = mkResponse 200 (GlobalAchievementPercentages []) ->
  get_random_achievement w key appid cutoff st
  = (Ok None,
     mkState (requests st ++ [stats_request appid]) (draws st)
       (stdout st ++ [Text "No achievements for this game"]))
  /\ forall r,
       In r (requests (snd (get_random_achievement w key appid cutoff st))) ->
       In r (requests st)
       \/ (r = stats_request appid /\ forall k a, r <> schema_request k a).
Proof.
  intros H. rewrite get_random_achievement_none by exact H.
  split; [reflexivity|]. simpl. intros r Hr.
  apply in_app_or in Hr as [Hr|[<-|[]]]; [now left | right].
  split; [reflexivity | discriminate].
Qed.

(** C9. With both lists fetched and a first percentage that is not
    zero: if some schema entry was delivered without a percentage and
    has the name of no statistic, [get_random_achievement] raises
    [KeyError] on ["percent"] while sorting, having printed nothing and
    drawn nothing; if every schema entry has the name of some statistic
    or was delivered with a percentage, the listing is printed, one line
    per schema entry (the enriched entries, rearranged), and no
    [KeyError] is raised. *)
Theorem listing_needs_every_percent w key appid cutoff first rest sch st :
  http_get w (stats_request appid)
    = mkResponse 200 (GlobalAchievementPercentages (first :: rest)) ->
  http_get w (schema_request key appid) = mkResponse 200 (SchemaForGame sch) ->
  (stat_percent first =? 0)%float = false ->
  ((exists a, In a sch /\ schema_percent a = None /\
      forall s, In s (first :: rest) -> stat_name s <> schema_name a) ->
   get_random_achievement w key appid cutoff st
   = (Raise (KeyError "percent"), fetched st key appid))
  /\ ((forall a, In a sch ->
         schema_percent a <> None
         \/ exists s, In s (first :: rest) /\ stat_name s = schema_name a) ->
      exists sorted_by_unlocked,
        Permutation sorted_by_unlocked
          (map (enriched_entry (first :: rest)) (map item_of_schema sch))
        /\ List.length sorted_by_unlocked = List.length sch
        /\ stdout (snd (get_random_achievement w key appid cutoff st))
           = (stdout st ++ map listing_line (rev sorted_by_unlocked))%list
        /\ forall k,
             fst (get_random_achievement w key appid cutoff st)
             <> Raise (KeyError k)).
Proof.
  intros Hstats Hschema Hnz.
  rewrite (get_random_achievement_run _ _ _ _ _ _ _ Hstats Hschema _ Hnz).
  split.
  - intros Hmiss. apply list_and_select_KeyError.
    now apply enriched_some_missing.
  - intros Hall.
    destruct (list_and_select_listed w _
                (candidates_of (first :: rest) (100 / stat_percent first) cutoff)
                (fetched st key appid)
                (enriched_every_percent _ _ Hall)) as (s & Hp & ->).
    exists s. split; [exact Hp|]. split.
    { rewrite (Permutation_length Hp). now rewrite !length_map. }
    unfold bind, random_choice.
    destruct (nth_error _ _); simpl; split; try reflexivity; discriminate.
Qed.

(** C8. With both lists fetched, a first percentage that is not zero,
    every schema entry named by some statistic and a candidate set that
    is not empty, [get_random_achievement] selects a candidate and
    returns the display name of a schema entry with the candidate's name
    (the last such entry), or the empty string when no schema entry has
    that name. *)
Theorem get_random_achievement_display_name
    w key appid cutoff first rest sch st :
  http_get w (stats_request appid)
    = mkResponse 200 (GlobalAchievementPercentages (first :: rest)) ->
  http_get w (schema_request key appid) = mkResponse 200 (SchemaForGame sch) ->
  (stat_percent first =? 0)%float = false ->
  (forall a, In a sch ->
     exists s, In s (first :: rest) /\ stat_name s = schema_name a) ->
  let candidates :=
    candidates_of (first :: rest) (100 / stat_percent first) cutoff in
  candidates <> [] ->
  exists chosen,
    nth_error candidates
      (random_bits w (draws st) mod List.length candidates) = Some chosen
    /\ In chosen candidates
    /\ ((forall a, In a sch -> schema_name a <> stat_name chosen) ->
        fst (get_random_achievement w key appid cutoff st) = Ok (Some ""))
    /\ ((exists a, In a sch /\ schema_name a = stat_name chosen) ->
        exists before a after,
          sch = (before ++ a :: after)%list
          /\ schema_name a = stat_name chosen
          /\ (forall a', In a' after -> schema_name a' <> stat_name chosen)
          /\ fst (get_random_achievement w key appid cutoff st)
             = Ok (Some (schema_displayName a))).
Proof.
  intros Hstats Hschema Hnz Hall candidates Hne.
  rewrite (get_random_achievement_run _ _ _ _ _ _ _ Hstats Hschema _ Hnz).
  fold candidates.
  destruct (list_and_select_listed w _ candidates (fetched st key appid)
              (enriched_all_percent _ _ Hall)) as (s & _ & ->).
  set (st' := mkState _ _ _).
  destruct (random_choice_ok w candidates st' Hne) as (chosen & Hn & Hin & Hr).
  exists chosen. split; [exact Hn|]. split; [exact Hin|].
  unfold bind. rewrite Hr. simpl.
  rewrite find_display_name_map
    by (apply enriched_entry_name || apply enriched_entry_displayName).
  split.
  - intros Hnone. rewrite find_display_name_none; [reflexivity|].
    intros item Hitem. apply in_map_iff in Hitem as (a & <- & Ha).
    now apply Hnone.
  - intros (a & Ha & Hname).
    destruct (find_display_name_some (map item_of_schema sch)
                (stat_name chosen)) as (before & item & after & E & Hi & Hafter & ->).
    { exists (item_of_schema a). split; [now apply in_map | exact Hname]. }
    apply map_eq_app in E as (before' & rest' & -> & <- & E).
    apply map_eq_cons in E as (a' & after' & -> & <- & <-).
    exists before', a', after'. repeat split; try assumption.
    intros x Hx. apply (Hafter (item_of_schema x)). now apply in_map.
Qed.

(** C2, amended.  With both lists fetched and a first percentage that is
    not zero, the modifier is [100.0 / percent] of the first entry, and
    [get_random_achievement] goes on to list and select with, as its
    candidate set, exactly the entries (in the order of the list) whose
    [percent * modifier] reaches the cutoff.  For the percentages 50 and
    10 and the cutoff 80 the modifier is 2.0 and the first entry is the
    only candidate. *)
Theorem get_random_achievement_candidates
    w key appid cutoff first rest sch st :
  http_get w (stats_request appid)
    = mkResponse 200 (GlobalAchievementPercentages (first :: rest)) ->
  http_get w (schema_request key appid) = mkResponse 200 (SchemaForGame sch) ->
  (stat_percent first =? 0)%float = false ->
  let modifier := (100 / stat_percent first)%float in
  let candidates :=
    filter (fun a => (cutoff <=? stat_percent a * modifier)%float)
      (first :: rest) in
  truediv 100 (stat_percent first) st = (Ok modifier, st)
  /\ (forall a, In a candidates
                <-> In a (first :: rest)
                    /\ (cutoff <=? stat_percent a * modifier)%float = true)
  /\ get_random_achievement w key appid cutoff st
     = list_and_select w
         (map (enriched_entry (first :: rest)) (map item_of_schema sch))
         candidates (fetched st key appid)
  /\ (stat_percent first = 50%float ->
      map stat_percent rest = [10%float] ->
      cutoff = 80%float ->
      modifier = 2%float /\ candidates = [first]).
Proof.
  intros Hstats Hschema Hnz modifier candidates.
  split; [|split; [|split]].
  - unfold truediv. now rewrite Hnz.
  - intros a. subst candidates. now rewrite filter_In.
  - exact (get_random_achievement_run _ _ _ _ _ _ _ Hstats Hschema _ Hnz).
  - intros Hfirst Hrest ->. subst modifier candidates.
    destruct rest as [|second [|]]; try discriminate.
    injection Hrest as Hsecond. simpl. rewrite Hfirst, Hsecond.
    split; reflexivity.
Qed.

(** * Concrete runs *)

Lemma parse_id_input_profile_url_witness :
  parse_id_input (sample_world [] [] [])
    "https://steamcommunity.com/profiles/76561197960287930" "KEY"
    initial_state
  = (Ok "76561197960287930", initial_state).
Proof.
  apply (parse_id_input_profile_url (sample_world [] [] [])
           "https://steamcommunity.com/" "76561197960287930" "KEY"
           initial_state); reflexivity.
Defined.

Lemma parse_id_input_vanity_url_witness :
  fst (parse_id_input (sample_world [] [] [])
         "https://steamcommunity.com/id/gabelogannewell" "KEY" initial_state)
  = Ok "76561197960287930"
  /\ requests (snd (parse_id_input (sample_world [] [] [])
         "https://steamcommunity.com/id/gabelogannewell" "KEY" initial_state))
     = [vanity_request "KEY" "gabelogannewell"].
Proof.
  destruct (parse_id_input_vanity_url (sample_world [] [] [])
              "https://steamcommunity.com/" "gabelogannewell" "KEY"
              initial_state eq_refl eq_refl eq_refl) as (_ & Hreq & Hok).
  split; [apply Hok; reflexivity | exact Hreq].
Defined.

(** C7 as stated fails on an input with a newline after [id/]: the dot
    does not match it, the third pattern does not match at all, and the
    whole input, not the remainder after [id/], is looked up. *)
Lemma parse_id_input_vanity_url_newline :
  let id_input := "id/a" ++ nl ++ "b" in
  contains "id/" id_input = true
  /\ Re.re_match re_steamid64 id_input = None
  /\ Re.re_search re_profile_url id_input = None
  /\ requests (snd (parse_id_input (sample_world [] [] []) id_input "KEY"
                      initial_state))
     = [vanity_request "KEY" id_input]
  /\ vanity_request "KEY" id_input <> vanity_request "KEY" ("a" ++ nl ++ "b").
Proof. repeat split. discriminate. Qed.

Lemma pick_random_game_candidates_witness :
  let w := sample_world [half_life; portal; team_fortress] [] [] in
  selectable_games true 0 [half_life; portal; team_fortress]
    = [half_life; portal; team_fortress]
  /\ selectable_games false 120 [half_life; portal; team_fortress]
     = [half_life; portal]
  /\ selectable_games false 0 [half_life; portal; team_fortress]
     = [half_life]
  /\ exists game,
       In game [half_life; portal]
       /\ fst (pick_random_game w "KEY" "76561197960287930" false 120
                 initial_state) = Ok game.
Proof.
  intros w.
  pose (st2 := mkState [owned_games_request "KEY" "76561197960287930"] 0 []).
  destruct (pick_random_game_candidates w "KEY" "76561197960287930" true 0
              initial_state "76561197960287930" initial_state
              [half_life; portal; team_fortress] st2 eq_refl eq_refl)
    as (Hall & _).
  destruct (pick_random_game_candidates w "KEY" "76561197960287930" false 120
              initial_state "76561197960287930" initial_state
              [half_life; portal; team_fortress] st2 eq_refl eq_refl)
    as (_ & Hsome & _ & Hpick & _).
  destruct (pick_random_game_candidates w "KEY" "76561197960287930" false 0
              initial_state "76561197960287930" initial_state
              [half_life; portal; team_fortress] st2 eq_refl eq_refl)
    as (_ & _ & Hzero & _).
  split; [exact (Hall eq_refl)|].
  split; [exact (proj1 (Hsome eq_refl))|].
  split.
  - rewrite (Hzero eq_refl eq_refl); [reflexivity|].
    repeat constructor; discriminate.
  - destruct (Hpick ltac:(discriminate)) as (game & Hin & Hrun).
    exists game. split; [exact Hin | now rewrite Hrun].
Defined.

Lemma pick_random_game_empty_witness :
  pick_random_game (sample_world [portal; team_fortress] [] [])
    "KEY" "76561197960287930" false 0 initial_state
  = (Raise (IndexError "Cannot choose from an empty sequence"),
     mkState [owned_games_request "KEY" "76561197960287930"] 0 []).
Proof.
  apply (pick_random_game_empty (sample_world [portal; team_fortress] [] [])
           "KEY" "76561197960287930" false 0 initial_state
           "76561197960287930" initial_state [portal; team_fortress]);
    reflexivity.
Defined.

(** C1 as stated fails: on a library without an unplayed game the
    candidate set is empty and the exception raised is not of class
    [EmptySelectionError]. *)
Lemma pick_random_game_no_EmptySelectionError :
  selectable_games false 0 [portal; team_fortress] = []
  /\ ~ exists e,
         fst (pick_random_game (sample_world [portal; team_fortress] [] [])
                "KEY" "76561197960287930" false 0 initial_state) = Raise e
         /\ exn_class e = "EmptySelectionError".
Proof.
  split; [reflexivity|].
  intros (e & He & Hc). vm_compute in He. injection He as <-. discriminate.
Qed.

Lemma get_random_achievement_no_achievements_witness :
  get_random_achievement (sample_world [] [] [schema_A]) "KEY" 440 80
    initial_state
  = (Ok None,
     mkState [stats_request 440] 0 [Text "No achievements for this game"]).
Proof.
  apply (get_random_achievement_no_achievements
           (sample_world [] [] [schema_A]) "KEY" 440 80 initial_state).
  reflexivity.
Defined.

Lemma listing_needs_every_percent_witness :
  get_random_achievement
    (sample_world [] [stat_A; stat_B] [schema_A; schema_C]) "KEY" 440 80
    initial_state
  = (Raise (KeyError "percent"), fetched initial_state "KEY" 440)
  /\ exists sorted_by_unlocked,
       Permutation sorted_by_unlocked
         (map (enriched_entry [stat_A; stat_B])
            (map item_of_schema [schema_D; schema_A]))
       /\ List.length sorted_by_unlocked = 2%nat
       /\ stdout (snd (get_random_achievement
                         (sample_world [] [stat_A; stat_B] [schema_D; schema_A])
                         "KEY" 440 80 initial_state))
          = ([] ++ map listing_line (rev sorted_by_unlocked))%list
       /\ forall k,
            fst (get_random_achievement
                   (sample_world [] [stat_A; stat_B] [schema_D; schema_A])
                   "KEY" 440 80 initial_state)
            <> Raise (KeyError k).
Proof.
  split.
  - apply (listing_needs_every_percent
             (sample_world [] [stat_A; stat_B] [schema_A; schema_C])
             "KEY" 440 80 stat_A [stat_B] [schema_A; schema_C] initial_state
             eq_refl eq_refl eq_refl).
    exists schema_C. split; [right; now left|]. split; [reflexivity|].
    intros s [<-|[<-|[]]]; discriminate.
  - apply (listing_needs_every_percent
             (sample_world [] [stat_A; stat_B] [schema_D; schema_A])
             "KEY" 440 80 stat_A [stat_B] [schema_D; schema_A] initial_state
             eq_refl eq_refl eq_refl).
    intros a [<-|[<-|[]]].
    + left. discriminate.
    + right. exists stat_A. split; [now left | reflexivity].
Defined.

Lemma get_random_achievement_display_name_witness :
  fst (get_random_achievement
         (sample_world [] [stat_A; stat_B] [schema_B; schema_A]) "KEY" 440 80
         initial_state)
  = Ok (Some "Alpha").
Proof.
  destruct (get_random_achievement_display_name
              (sample_world [] [stat_A; stat_B] [schema_B; schema_A])
              "KEY" 440 80 stat_A [stat_B] [schema_B; schema_A] initial_state
              eq_refl eq_refl eq_refl) as (chosen & Hn & _ & _ & Hsome).
  - intros a [<-|[<-|[]]].
    + exists stat_B. split; [right; now left | reflexivity].
    + exists stat_A. split; [now left | reflexivity].
  - discriminate.
  - injection Hn as <-.
    destruct Hsome as (before & a & after & E & Hname & Hafter & ->).
    + exists schema_A. split; [right; now left | reflexivity].
    + destruct before as [|b0 [|b1 [|]]]; try discriminate.
      * injection E as <- <-. discriminate Hname.
      * injection E as _ <- _. reflexivity.
Defined.

Lemma get_random_achievement_candidates_witness :
  let w := sample_world [] [stat_A; stat_B] [schema_A; schema_B] in
  (100 / stat_percent stat_A)%float = 2%float
  /\ filter (fun a => (80 <=? stat_percent a * (100 / stat_percent stat_A))%float)
       [stat_A; stat_B] = [stat_A]
  /\ get_random_achievement w "KEY" 440 80 initial_state
     = list_and_select w
         (map (enriched_entry [stat_A; stat_B])
            (map item_of_schema [schema_A; schema_B]))
         [stat_A] (fetched initial_state "KEY" 440).
Proof.
  intros w.
  destruct (get_random_achievement_candidates w "KEY" 440 80 stat_A [stat_B]
              [schema_A; schema_B] initial_state eq_refl eq_refl eq_refl)
    as (_ & _ & Hrun & Hex).
  destruct (Hex eq_refl eq_refl eq_refl) as [Hm Hc].
  split; [exact Hm|]. split; [exact Hc|].
  rewrite Hrun. now rewrite Hc.
Defined.

(** C2 as stated fails on a first percentage of zero: the division
    raises, no modifier and no candidate set are computed. *)
Lemma get_random_achievement_zero_percent :
  let w := sample_world [] [mkStat "A" 0] [schema_A] in
  (forall m st', truediv 100 (stat_percent (mkStat "A" 0)) initial_state
                 <> (Ok m, st'))
  /\ get_random_achievement w "KEY" 440 80 initial_state
     = (Raise (ZeroDivisionError "float division by zero"),
        fetched initial_state "KEY" 440).
Proof. split; [discriminate | reflexivity]. Qed.

(** C9 as stated fails where the listing step is not reached.  The
    entry Gamma has the name of no statistic, yet no [KeyError] is
    raised: with a first percentage of zero the division raises
    [ZeroDivisionError] first, and with an empty percentages list the
    function returns [None] without fetching the schema. *)
Lemma listing_unreached_no_KeyError :
  (forall s, In s [mkStat "A" 0] -> stat_name s <> schema_name schema_C)
  /\ get_random_achievement
       (sample_world [] [mkStat "A" 0] [schema_A; schema_C]) "KEY" 440 80
       initial_state
     = (Raise (ZeroDivisionError "float division by zero"),
        fetched initial_state "KEY" 440)
  /\ get_random_achievement (sample_world [] [] [schema_A; schema_C])
       "KEY" 440 80 initial_state
     = (Ok None,
        mkState [stats_request 440] 0 [Text "No achievements for this game"]).
Proof.
  split; [|split; reflexivity].
  intros s [<-|[]]. discriminate.
Qed.

(** An entry that has the name of no statistic but was delivered with a
    percentage of its own is listed with that percentage, and the run
    goes on to the selection: no [KeyError] is raised. *)
Lemma listing_delivered_percent_no_KeyError :
  (forall s, In s [stat_A] -> stat_name s <> schema_name schema_D)
  /\ get_random_achievement (sample_world [] [stat_A] [schema_D; schema_A])
       "KEY" 440 80 initial_state
     = (Ok (Some "Alpha"),
        mkState [stats_request 440; schema_request "KEY" 440] 1
          [Listing_line "Alpha" 50; Listing_line "Delta" 5]).
Proof.
  split; [|reflexivity].
  intros s [<-|[]]. discriminate.
Qed.

(** * Binary64 arithmetic

    The primitive floats are specified by [SpecFloat]; the lemmas below
    bound from below what rounding to nearest returns, for the quotient
    [100.0 / p] and the product [p * (100.0 / p)]. *)

Module Binary64.

Local Open Scope Z_scope.

Lemma digits2_pos_bounds (p : positive) :
  2 ^ (Zpos (digits2_pos p) - 1) <= Zpos p < 2 ^ Zpos (digits2_pos p).
Proof.
  induction p as [p IH|p IH|]; simpl digits2_pos.
  - rewrite Pos2Z.inj_succ, Pos2Z.inj_xI.
    replace (Z.succ (Zpos (digits2_pos p)) - 1)
      with (Z.succ (Zpos (digits2_pos p) - 1)) by lia.
    rewrite !Z.pow_succ_r by lia.
    generalize dependent (2 ^ (Z.pos (digits2_pos p) - 1)).
    generalize dependent (2 ^ (Z.pos (digits2_pos p))). intros. lia.
  - rewrite Pos2Z.inj_succ. change (Z.pos p~0) with (2 * Z.pos p).
    replace (Z.succ (Zpos (digits2_pos p)) - 1)
      with (Z.succ (Zpos (digits2_pos p) - 1)) by lia.
    rewrite !Z.pow_succ_r by lia.
    generalize dependent (2 ^ (Z.pos (digits2_pos p) - 1)).
    generalize dependent (2 ^ (Z.pos (digits2_pos p))). intros. lia.
  - simpl. lia.
Qed.

Lemma shr_1_m (mrs : shr_record) :
  0 <= shr_m mrs -> shr_m (shr_1 mrs) = shr_m mrs / 2.
Proof.
  destruct mrs as [m r s]. simpl. intros H.
  rewrite <- Z.div2_div.
  destruct m as [|[p|p|]|p]; try reflexivity. lia.
Qed.

Lemma iter_shr_m (n : positive) : forall mrs,
  0 <= shr_m mrs ->
  shr_m (iter_pos shr_1 n mrs) = shr_m mrs / 2 ^ Zpos n.
Proof.
  assert (P : forall k, 0 < 2 ^ Zpos k) by (intros; now apply Z.pow_pos_nonneg).
  induction n as [n IH|n IH|]; intros mrs H; simpl iter_pos.
  - assert (H1 : 0 <= shr_m (shr_1 mrs))
      by (rewrite shr_1_m by assumption; now apply Z.div_pos).
    assert (H2 : 0 <= shr_m (iter_pos shr_1 n (shr_1 mrs)))
      by (rewrite IH by assumption; apply Z.div_pos; [assumption | apply P]).
    rewrite IH, IH, shr_1_m by assumption.
    rewrite !Z.div_div by (try lia; try apply P; specialize (P n); lia).
    f_equal. rewrite Pos2Z.inj_xI.
    replace (2 * Zpos n + 1) with (1 + Zpos n + Zpos n) by lia.
    rewrite !Z.pow_add_r by lia. lia.
  - assert (H2 : 0 <= shr_m (iter_pos shr_1 n mrs))
      by (rewrite IH by assumption; apply Z.div_pos; [assumption | apply P]).
    rewrite IH, IH by assumption.
    rewrite !Z.div_div by (try lia; try apply P; specialize (P n); lia).
    f_equal. change (Z.pos n~0) with (2 * Z.pos n).
    replace (2 * Zpos n) with (Zpos n + Zpos n) by lia.
    now rewrite Z.pow_add_r by lia.
  - now rewrite shr_1_m.
Qed.

Lemma fexp_eq (x : Z) : fexp prec emax x = Z.max (x - 53) (-1074).
Proof. reflexivity. Qed.

Lemma shr_fexp_spec (m e : Z) (l : location) :
  0 <= m ->
  shr_m (fst (shr_fexp prec emax m e l)) = m / 2 ^ shift_of m e
  /\ snd (shr_fexp prec emax m e l) = e + shift_of m e.
Proof.
  intros Hm. unfold shr_fexp, shr, shift_of.
  assert (E : shr_m (shr_record_of_loc m l) = m)
    by (destruct l as [|[]]; reflexivity).
  destruct (fexp prec emax (Zdigits2 m + e) - e) as [|n|n] eqn:En; simpl fst; simpl snd.
  - rewrite E. change (Z.max 0 0) with 0. rewrite Z.div_1_r. lia.
  - rewrite iter_shr_m by (rewrite E; exact Hm). rewrite E.
    replace (Z.max 0 (Z.pos n)) with (Z.pos n) by lia. lia.
  - rewrite E. replace (Z.max 0 (Z.neg n)) with 0 by lia.
    rewrite Z.div_1_r. lia.
Qed.

Lemma round_nearest_even_bounds (m : Z) (l : location) :
  m <= round_nearest_even m l <= m + 1.
Proof.
  destruct l as [|[]]; simpl; try lia. destruct (Z.even m); lia.
Qed.

Lemma Zdigits2_le (x k : Z) : 0 < x < 2 ^ k -> 0 <= k -> Zdigits2 x <= k.
Proof.
  intros [H0 Hx] Hk. destruct x as [|p|p]; try lia. simpl.
  destruct (digits2_pos_bounds p) as [Hl _].
  assert (2 ^ (Z.pos (digits2_pos p) - 1) < 2 ^ k) by lia.
  apply Z.pow_lt_mono_r_iff in H; lia.
Qed.

Lemma Zdigits2_gt (x k : Z) : 2 ^ k <= x -> 0 <= k -> k < Zdigits2 x.
Proof.
  intros Hx Hk. assert (0 < 2 ^ k) by now apply Z.pow_pos_nonneg.
  destruct x as [|p|p]; try lia. simpl.
  destruct (digits2_pos_bounds p) as [_ Hu].
  assert (2 ^ k < 2 ^ Z.pos (digits2_pos p)) by lia.
  apply Z.pow_lt_mono_r_iff in H0; lia.
Qed.

(** Rounding a positive number that is not below the smallest positive
    float: the result is infinite, or finite with a mantissa that is at
    least the truncated one. *)
Lemma binary_round_aux_normal (m e : Z) (l : location) :
  0 < m -> -1074 <= e ->
  binary_round_aux prec emax false m e l = S754_infinity false
  \/ exists m' t,
       binary_round_aux prec emax false m e l = S754_finite false m' (e + t)
       /\ 0 <= t <= Z.max 0 (Zdigits2 m - 53) + 1
       /\ m / 2 ^ t <= Z.pos m'.
Proof.
  intros Hm He. unfold binary_round_aux.
  destruct (shr_fexp_spec m e l ltac:(lia)) as [Hm1 He1].
  destruct (shr_fexp prec emax m e l) as [mrs1 e1]. simpl in Hm1, He1.
  pose proof (round_nearest_even_bounds (shr_m mrs1) (loc_of_shr_record mrs1))
    as Hr.
  set (mr := round_nearest_even (shr_m mrs1) (loc_of_shr_record mrs1)) in *.
  (* the first shift *)
  set (d := Zdigits2 m) in *.
  assert (Hd : 2 ^ (d - 1) <= m < 2 ^ d).
  { subst d. destruct m as [|p|p]; try lia. apply digits2_pos_bounds. }
  assert (Hd1 : 1 <= d).
  { subst d. destruct m as [|p|p]; simpl; lia. }
  assert (Hn1 : shift_of m e = Z.max 0 (d - 53)).
  { unfold shift_of. fold d. rewrite fexp_eq. lia. }
  rewrite Hn1 in Hm1, He1. set (n1 := Z.max 0 (d - 53)) in *.
  assert (Hm1b : 0 < shr_m mrs1 < 2 ^ 53).
  { rewrite Hm1. destruct (Z.le_gt_cases d 53) as [Hle|Hgt].
    - replace n1 with 0 by lia. rewrite Z.div_1_r. split; [lia|].
      apply Z.lt_le_trans with (2 ^ d); [lia|].
      apply Z.pow_le_mono_r; lia.
    - replace n1 with (d - 53) by lia.
      assert (P : 0 < 2 ^ (d - 53)) by (apply Z.pow_pos_nonneg; lia).
      assert (E1 : 2 ^ d = 2 ^ 53 * 2 ^ (d - 53))
        by (rewrite <- Z.pow_add_r by lia; f_equal; lia).
      assert (E2 : 2 ^ (d - 1) = 2 ^ 52 * 2 ^ (d - 53))
        by (rewrite <- Z.pow_add_r by lia; f_equal; lia).
      split.
      + apply Z.lt_le_trans with (2 ^ 52); [reflexivity|].
        apply Z.div_le_lower_bound; lia.
      + apply Z.div_lt_upper_bound; lia. }
  (* the second shift *)
  assert (Hmr : 0 < mr <= 2 ^ 53) by lia.
  destruct (shr_fexp_spec mr e1 loc_Exact ltac:(lia)) as [Hm2 He2].
  destruct (shr_fexp prec emax mr e1 loc_Exact) as [mrs2 e2].
  simpl in Hm2, He2.
  assert (Hn2 : (shift_of mr e1 = 0 /\ mr < 2 ^ 53)
                \/ (shift_of mr e1 = 1 /\ mr = 2 ^ 53)).
  { unfold shift_of. rewrite fexp_eq.
    destruct (Z.eq_dec mr (2 ^ 53)) as [E|N].
    - right. split; [|exact E]. rewrite E. change (Zdigits2 (2 ^ 53)) with 54. lia.
    - left. split; [|lia].
      assert (Zdigits2 mr <= 53) by (apply Zdigits2_le; lia). lia. }
  assert (Hpos : 0 < shr_m mrs2 /\ m / 2 ^ (n1 + shift_of mr e1) <= shr_m mrs2).
  { rewrite Hm2. destruct Hn2 as [[-> Hlt]|[-> Heq]].
    - rewrite Z.div_1_r, Z.add_0_r. lia.
    - rewrite Z.pow_add_r, <- Z.div_div by (try apply Z.pow_pos_nonneg; lia).
      rewrite <- Hm1. change (2 ^ 1) with 2. split.
      + rewrite Heq. reflexivity.
      + apply Z.div_le_mono; lia. }
  destruct (shr_m mrs2) as [|m'|m'] eqn:Em'; try lia.
  destruct (e2 <=? emax - prec); [right | now left].
  exists m', (n1 + shift_of mr e1). split; [f_equal; lia|].
  split; [|apply Hpos]. fold d. destruct Hn2 as [[-> _]|[-> _]]; lia.
Qed.

Lemma Prim2SF_100 : Prim2SF 100 = S754_finite false m100 (-46).
Proof. reflexivity. Qed.

Lemma bounded_inv (m : positive) (e : Z) :
  bounded prec emax m e = true ->
  -1074 <= e <= 971 /\ Z.pos (digits2_pos m) <= 53
  /\ (e = -1074 \/ Z.pos (digits2_pos m) = 53).
Proof.
  unfold bounded, canonical_mantissa. rewrite fexp_eq.
  intros H. apply andb_true_iff in H as [H1 H2].
  apply Z.eqb_eq in H1. apply Z.leb_le in H2.
  change (emax - prec) with 971 in H2. lia.
Qed.

(** The quotient of 100 by a positive float, before rounding. *)
Lemma SFdiv_core_binary_100 (mp : positive) (ep : Z) :
  bounded prec emax mp ep = true ->
  exists l,
    SFdiv_core_binary prec emax (Z.pos m100) (-46) (Z.pos mp) ep
    = (Z.pos m100 * 2 ^ Z.pos (digits2_pos mp) / Z.pos mp,
       -46 - Z.pos (digits2_pos mp) - ep, l).
Proof.
  intros Hb. apply bounded_inv in Hb as (He & Hd & _).
  unfold SFdiv_core_binary.
  change (Zdigits2 (Z.pos m100)) with 53.
  change (Zdigits2 (Z.pos mp)) with (Z.pos (digits2_pos mp)).
  set (d := Z.pos (digits2_pos mp)) in *.
  rewrite fexp_eq.
  replace (Z.min (Z.max (53 + -46 - (d + ep) - 53) (-1074)) (-46 - ep))
    with (-46 - d - ep) by lia.
  replace (-46 - ep - (-46 - d - ep)) with d by lia.
  unfold d at 1. rewrite Z.shiftl_mul_pow2 by lia.
  unfold Z.div.
  destruct (Z.div_eucl (Z.pos m100 * 2 ^ d) (Z.pos mp)) as [q r].
  now eexists.
Qed.

Lemma SFdiv_100 (mp : positive) (ep : Z) :
  bounded prec emax mp ep = true ->
  let d := Z.pos (digits2_pos mp) in
  let q := SF64div (S754_finite false m100 (-46)) (S754_finite false mp ep) in
  q = S754_infinity false
  \/ exists mq k,
       q = S754_finite false mq (-46 - d - ep + k)
       /\ 0 <= k <= 2
       /\ Z.pos m100 * 2 ^ d / Z.pos mp / 2 ^ k <= Z.pos mq.
Proof.
  intros Hb d q. subst q. unfold SF64div, SFdiv.
  destruct (SFdiv_core_binary_100 mp ep Hb) as [l ->]. fold d.
  apply bounded_inv in Hb as (He & Hd & _). fold d in Hd.
  destruct (digits2_pos_bounds mp) as [Hlo Hhi]. fold d in Hlo, Hhi.
  assert (Hd1 : 1 <= d) by (subst d; lia).
  assert (P : 0 < 2 ^ (d - 1)) by (apply Z.pow_pos_nonneg; lia).
  assert (E : 2 ^ d = 2 * 2 ^ (d - 1)).
  { replace d with (Z.succ (d - 1)) at 1 by lia. apply Z.pow_succ_r. lia. }
  set (qz := Z.pos m100 * 2 ^ d / Z.pos mp).
  assert (Hq : Z.pos m100 <= qz <= 2 * Z.pos m100).
  { subst qz. split.
    - apply Z.div_le_lower_bound; [lia|]. rewrite E. nia.
    - apply Z.div_le_upper_bound; [lia|]. rewrite E. nia. }
  assert (Hdq : Zdigits2 qz <= 54).
  { apply Zdigits2_le; [|lia]. split; [lia|].
    apply Z.le_lt_trans with (2 * Z.pos m100); [lia | reflexivity]. }
  destruct (binary_round_aux_normal qz (-46 - d - ep) l ltac:(lia) ltac:(lia))
    as [Hinf|(mq & t & Hfin & Ht & Hm)].
  - left. exact Hinf.
  - right. exists mq, t. repeat split; try assumption; lia.
Qed.

Lemma SFmul_back (mp mq : positive) (ep k : Z) :
  bounded prec emax mp ep = true ->
  0 <= k <= 2 ->
  Z.pos m100 * 2 ^ Z.pos (digits2_pos mp) / Z.pos mp / 2 ^ k <= Z.pos mq ->
  let r := SF64mul (S754_finite false mp ep)
             (S754_finite false mq (-46 - Z.pos (digits2_pos mp) - ep + k)) in
  valid_binary r = true ->
  SFleb (S754_finite false m_floor (-46)) r = true.
Proof.
  intros Hb Hk Hmq r Hv. subst r. unfold SF64mul, SFmul in *.
  pose proof (eq_refl : Z.pos m100 = 7036874417766400) as Em100.
  pose proof (eq_refl : Z.pos m_floor = 7036874417766396) as Em_floor.
  pose proof (eq_refl : 2 ^ 53 = 9007199254740992) as E53.
  cbn [xorb] in *.
  apply bounded_inv in Hb as (He & Hd & _).
  set (d := Z.pos (digits2_pos mp)) in *.
  destruct (digits2_pos_bounds mp) as [_ Hhi]. fold d in Hhi.
  assert (Hd1 : 1 <= d) by (subst d; lia).
  set (A := 2 ^ d) in *. set (K := 2 ^ k) in *.
  assert (HK : 1 <= K <= 4).
  { subst K. assert (k = 0 \/ k = 1 \/ k = 2) as [->|[->| ->]] by lia;
      cbn; lia. }
  set (Q := Z.pos m100 * A / Z.pos mp) in *.
  (* the exact product is close to 100 *)
  assert (HM : (Z.pos m100 - 4) * A < Z.pos (mp * mq) * K).
  { pose proof (Z.mul_succ_div_gt (Z.pos m100 * A) (Z.pos mp) ltac:(lia)) as H1.
    fold Q in H1.
    pose proof (Z.mul_succ_div_gt Q K ltac:(lia)) as H2.
    rewrite Pos2Z.inj_mul.
    assert (S1 : K * (Q / K) <= K * Z.pos mq)
      by (apply Z.mul_le_mono_nonneg_l; lia).
    assert (S2 : Z.pos mp * (Q - K + 1) <= Z.pos mp * (K * Z.pos mq))
      by (apply Z.mul_le_mono_nonneg_l; lia).
    assert (S3 : Z.pos mp * K <= A * 4)
      by (apply Z.mul_le_mono_nonneg; lia).
    lia. }
  destruct (binary_round_aux_normal (Z.pos (mp * mq)) (ep + (-46 - d - ep + k))
              loc_Exact ltac:(lia) ltac:(lia))
    as [Hinf|(m3 & t & Hfin & Ht & Hm3)].
  - rewrite Hinf. reflexivity.
  - rewrite Hfin in Hv |- *. apply bounded_inv in Hv as (_ & Hd3 & _).
    assert (H3 : Z.pos m3 < 2 ^ 53).
    { destruct (digits2_pos_bounds m3) as [_ Hu].
      apply Z.lt_le_trans with (1 := Hu). apply Z.pow_le_mono_r; lia. }
    unfold SFleb, SFcompare.
    destruct (Z.compare_spec (-46) (ep + (-46 - d - ep + k) + t))
      as [Heq|Hlt|Hgt]; [|reflexivity|].
    + (* the same exponent: compare the mantissas *)
      assert (Hdt : d = t + k) by lia.
      assert (EA : A = 2 ^ t * K).
      { subst A K. rewrite Hdt. apply Z.pow_add_r; lia. }
      assert (PT : 0 < 2 ^ t) by (apply Z.pow_pos_nonneg; lia).
      assert (Hge : Z.pos m100 - 4 <= Z.pos (mp * mq) / 2 ^ t).
      { apply Z.div_le_lower_bound; [exact PT|]. rewrite EA in HM.
        assert (S1 : (Z.pos m100 - 4) * 2 ^ t * K < Z.pos (mp * mq) * K)
          by lia.
        apply Z.mul_lt_mono_pos_r in S1; lia. }
      assert (Hle : Z.pos m_floor <= Z.pos m3) by lia.
      change (Pos.compare_cont Eq m_floor m3) with (Pos.compare m_floor m3).
      destruct (Pos.compare_spec m_floor m3) as [_|_|Hgt]; try reflexivity.
      clear -Hgt Hle. apply Pos2Z.pos_lt_pos in Hgt. lia.
    + (* a smaller exponent is impossible *)
      exfalso.
      set (u := d - k - t) in *.
      assert (Hu : 1 <= u) by lia.
      assert (EA : A = 2 ^ u * (2 ^ t * K)).
      { subst A K u. rewrite <- !Z.pow_add_r by lia. f_equal. lia. }
      assert (PT : 0 < 2 ^ t) by (apply Z.pow_pos_nonneg; lia).
      assert (PU : 2 <= 2 ^ u).
      { change 2 with (2 ^ 1) at 1. apply Z.pow_le_mono_r; lia. }
      assert (Hge : 2 * (Z.pos m100 - 4) <= Z.pos (mp * mq) / 2 ^ t).
      { apply Z.div_le_lower_bound; [exact PT|]. rewrite EA in HM.
        assert (S1 : (Z.pos m100 - 4) * (2 ^ u * 2 ^ t) * K
                     < Z.pos (mp * mq) * K) by lia.
        apply Z.mul_lt_mono_pos_r in S1; [|lia].
        assert (S2 : (Z.pos m100 - 4) * (2 * 2 ^ t)
                     <= (Z.pos m100 - 4) * (2 ^ u * 2 ^ t)).
        { apply Z.mul_le_mono_nonneg_l; [lia|].
          apply Z.mul_le_mono_nonneg_r; lia. }
        lia. }
      lia.
Qed.

(** [<=] on floats goes through a positive finite float: what is not
    above it is not above anything that is not below it. *)
Lemma SFleb_trans_pos (a b : spec_float) (m0 : positive) (e0 : Z) :
  SFleb a (S754_finite false m0 e0) = true ->
  SFleb (S754_finite false m0 e0) b = true ->
  SFleb a b = true.
Proof.
  unfold SFleb, SFcompare.
  destruct a as [sa|sa| |sa ma ea], b as [sb|sb| |sb mb eb];
    try destruct sa; try destruct sb; try reflexivity; try discriminate.
  change (Pos.compare_cont Eq ma m0) with (Z.pos ma ?= Z.pos m0).
  change (Pos.compare_cont Eq m0 mb) with (Z.pos m0 ?= Z.pos mb).
  change (Pos.compare_cont Eq ma mb) with (Z.pos ma ?= Z.pos mb).
  destruct (Z.compare_spec ea e0), (Z.compare_spec e0 eb),
    (Z.compare_spec ea eb); try reflexivity; try discriminate; try lia.
  destruct (Z.compare_spec (Z.pos ma) (Z.pos m0)),
    (Z.compare_spec (Z.pos m0) (Z.pos mb)),
    (Z.compare_spec (Z.pos ma) (Z.pos mb));
    try reflexivity; try discriminate; lia.
Qed.

(** A float that is above zero and below infinity is finite and
    positive. *)
Lemma positive_finite (p : float) :
  (0 <? p)%float = true -> (p <? infinity)%float = true ->
  exists mp ep, Prim2SF p = S754_finite false mp ep.
Proof.
  rewrite !ltb_spec. change (Prim2SF 0) with (S754_zero false).
  change (Prim2SF infinity) with (S754_infinity false).
  unfold SFltb, SFcompare.
  destruct (Prim2SF p) as [s|s| |s mp ep]; try discriminate.
  - destruct s; discriminate.
  - destruct s; [discriminate|]. intros _ _. now exists mp, ep.
Qed.

Lemma Prim2SF_cutoff_floor :
  Prim2SF cutoff_floor = S754_finite false m_floor (-46).
Proof. reflexivity. Qed.

(** A finite positive percentage, normalised by [100.0 / itself],
    reaches every cutoff up to 99.99999999999994. *)
Theorem normalised_percent_reaches (p cutoff : float) :
  (0 <? p)%float = true -> (p <? infinity)%float = true ->
  (cutoff <=? cutoff_floor)%float = true ->
  (cutoff <=? p * (100 / p))%float = true.
Proof.
  intros H0 Hinf Hc.
  destruct (positive_finite p H0 Hinf) as (mp & ep & Ep).
  pose proof (Prim2SF_valid p) as Hb. rewrite Ep in Hb. simpl in Hb.
  rewrite leb_spec in Hc |- *. rewrite Prim2SF_cutoff_floor in Hc.
  apply (SFleb_trans_pos _ _ _ _ Hc).
  pose proof (Prim2SF_valid (p * (100 / p))%float) as Hv.
  rewrite mul_spec, div_spec, Ep, Prim2SF_100 in Hv |- *.
  destruct (SFdiv_100 mp ep Hb) as [Hq|(mq & k & Hq & Hk & Hmq)];
    rewrite Hq in Hv |- *.
  - reflexivity.
  - now apply SFmul_back.
Qed.

Lemma positive_not_zero (p : float) :
  (0 <? p)%float = true -> (p =? 0)%float = false.
Proof.
  rewrite ltb_spec, eqb_spec. change (Prim2SF 0) with (S754_zero false).
  unfold SFltb, SFeqb, SFcompare.
  destruct (Prim2SF p) as [s|s| |s mp ep]; try discriminate;
    destruct s; try discriminate; reflexivity.
Qed.

End Binary64.

(** * The first entry and the cutoff *)

(** C10, amended.  For every non-empty percentages list whose first
    entry has a finite percentage above zero, and every cutoff up to
    99.99999999999994 (the default 80 is one): the first entry is in the
    rarity-filtered candidate set, its normalised percentage being within
    rounding of 100; the candidate set is not empty, [random.choice]
    returns one of its elements, and [get_random_achievement], once both
    lists are fetched, does not raise [IndexError]. *)
Theorem first_entry_is_candidate w first rest cutoff st :
  (0 <? stat_percent first)%float = true ->
  (stat_percent first <? infinity)%float = true ->
  (cutoff <=? cutoff_floor)%float = true ->
  let candidates :=
    candidates_of (first :: rest) (100 / stat_percent first) cutoff in
  (80 <=? cutoff_floor)%float = true
  /\ In first candidates
  /\ candidates <> []
  /\ (exists chosen,
        In chosen candidates
        /\ random_choice w candidates st
           = (Ok chosen, mkState (requests st) (S (draws st)) (stdout st)))
  /\ forall key appid sch st0,
       http_get w (stats_request appid)
         = mkResponse 200 (GlobalAchievementPercentages (first :: rest)) ->
       http_get w (schema_request key appid)
         = mkResponse 200 (SchemaForGame sch) ->
       forall msg,
         fst (get_random_achievement w key appid cutoff st0)
         <> Raise (IndexError msg).
Proof.
  intros Hpos Hfin Hcut candidates.
  assert (Hin : In first candidates).
  { subst candidates. unfold candidates_of. apply filter_In.
    split; [now left|]. now apply Binary64.normalised_percent_reaches. }
  assert (Hne : candidates <> []) by (intros E; rewrite E in Hin; elim Hin).
  split; [reflexivity|]. split; [exact Hin|]. split; [exact Hne|]. split.
  - destruct (random_choice_ok w candidates st Hne) as (chosen & _ & Hc & Hr).
    now exists chosen.
  - intros key appid sch st0 Hstats Hschema msg.
    rewrite (get_random_achievement_run _ _ _ _ _ _ _ Hstats Hschema _
               (Binary64.positive_not_zero _ Hpos)).
    fold candidates.
    set (items := map (enriched_entry (first :: rest)) (map item_of_schema sch)).
    destruct (Exists_dec (fun item => item_percent item = None) items) as [He|Hn].
    + intros item. destruct (item_percent item); [right; discriminate | now left].
    + rewrite list_and_select_KeyError by exact He. discriminate.
    + apply Forall_Exists_neg in Hn.
      destruct (list_and_select_listed w items candidates (fetched st0 key appid) Hn)
        as (s & _ & ->).
      set (st' := mkState _ _ _).
      destruct (random_choice_ok w candidates st' Hne) as (chosen & _ & _ & Hr).
      unfold bind. rewrite Hr. discriminate.
Qed.

Lemma first_entry_is_candidate_witness :
  let w := sample_world [] [mkStat "A" twelve_point_three; stat_B]
             [schema_A; schema_B] in
  In (mkStat "A" twelve_point_three)
    (candidates_of [mkStat "A" twelve_point_three; stat_B]
       (100 / twelve_point_three) 80)
  /\ forall msg,
       fst (get_random_achievement w "KEY" 440 80 initial_state)
       <> Raise (IndexError msg).
Proof.
  intros w.
  destruct (first_entry_is_candidate w (mkStat "A" twelve_point_three)
              [stat_B] 80 initial_state eq_refl eq_refl eq_refl)
    as (_ & Hin & _ & _ & Hrun).
  split; [exact Hin|].
  exact (Hrun "KEY" 440%Z [schema_A; schema_B] initial_state eq_refl eq_refl).
Defined.

(** C10 as stated fails for the cutoff 100: the normalised first
    percentage of 12.3 is 99.99999999999999, the candidate set is empty
    and [random.choice] raises. *)
Lemma first_entry_not_candidate :
  let p := twelve_point_three in
  let w := sample_world [] [mkStat "A" p] [schema_A] in
  (0 <? p)%float = true
  /\ (100 <=? 100)%float = true
  /\ (p * (100 / p) =? 100)%float = false
  /\ candidates_of [mkStat "A" p] (100 / p) 100 = []
  /\ fst (get_random_achievement w "KEY" 440 100 initial_state)
     = Raise (IndexError "Cannot choose from an empty sequence").
Proof. repeat split. Qed.

(** * Further properties of the identifier resolver *)

Section ResolverMore.

Import Re ReFacts.

Lemma repeat_complete_nl cs k (Hk : closes k) :
  forall d b o g,
    string_forallb (cset_mem cs) d = true ->
    match_here (Repeat (String.length d) cs :: k) b o g (d ++ nl)
    = Some (pushes o g d).
Proof.
  induction d as [|c d IH]; intros b o g H.
  - simpl String.length. rewrite match_repeat_0, Hk. simpl.
    now rewrite pushes_nil.
  - simpl in H. apply andb_true_iff in H as [Hc Hd].
    simpl String.length. change (String c d ++ nl) with (String c (d ++ nl)).
    rewrite match_repeat_S, Hc, IH by assumption.
    now rewrite pushes_cons.
Qed.

Lemma steamid64_match_complete d :
  is_steamid64 d ->
  re_match re_steamid64 d = Some ""
  /\ re_match re_steamid64 (d ++ nl) = Some "".
Proof.
  intros [Hlen Hdig]. unfold re_match, re_steamid64.
  change (match_here (Repeat 17 Digits :: [At_end]) true false "" d = Some ""
          /\ match_here (Repeat 17 Digits :: [At_end]) true false "" (d ++ nl)
             = Some "").
  rewrite <- Hlen.
  rewrite (repeat_complete _ _ closes_end), (repeat_complete_nl _ _ closes_end)
    by exact Hdig.
  now split.
Qed.

Lemma profile_match_complete_nl b d :
  is_steamid64 d ->
  match_here re_profile_url b false "" ("profiles/" ++ d ++ nl) = Some d.
Proof.
  intros [Hlen Hdig]. unfold re_profile_url. rewrite literal_match.
  replace (strip_prefix "profiles/" ("profiles/" ++ d ++ nl))
    with (Some (d ++ nl)) by (symmetry; now apply strip_prefix_Some).
  change (match_here (Repeat 17 Digits :: [Group_close; At_end])
            false true "" (d ++ nl) = Some d).
  rewrite <- Hlen.
  now rewrite (repeat_complete_nl _ _ closes_group_end) by exact Hdig.
Qed.

Lemma profile_url_nl_search pre d :
  is_steamid64 d ->
  re_match re_steamid64 (pre ++ "profiles/" ++ d ++ nl) = None
  /\ re_search re_profile_url (pre ++ "profiles/" ++ d ++ nl) = Some d.
Proof.
  intros Hd. pose proof Hd as [Hlen Hdig].
  assert (L : forall t, String.length (t ++ "profiles/" ++ d ++ nl)
                        = String.length t + 27).
  { intros t. rewrite !string_length_app, Hlen. simpl. lia. }
  split.
  - destruct (re_match _ _) as [r|] eqn:E; [|reflexivity].
    apply steamid64_match_sound in E as (d' & [Hlen' _] & Hs).
    specialize (L pre).
    destruct Hs as [Hs|Hs]; rewrite Hs in L;
      rewrite ?string_length_app, Hlen' in L; simpl in L; lia.
  - unfold re_search. rewrite search_from_skip.
    + change ("profiles/" ++ d ++ nl) with (String "p" ("rofiles/" ++ d ++ nl)).
      rewrite search_from_cons.
      change (String "p" ("rofiles/" ++ d ++ nl)) with ("profiles/" ++ d ++ nl).
      now rewrite profile_match_complete_nl.
    + intros a t -> Ht b'.
      destruct (match_here _ _ _ _ _) as [r|] eqn:E; [|reflexivity].
      exfalso. apply profile_match_sound in E as ([Hlen' _] & Hs).
      specialize (L t).
      assert (0 < String.length t) by (destruct t; simpl; [contradiction | lia]).
      destruct Hs as [Hs|Hs]; rewrite Hs in L;
        rewrite !string_length_app, Hlen' in L; simpl in L; lia.
Qed.

Lemma no_vanity_url_search s :
  contains "id/" s = false -> re_search re_vanity_url s = None.
Proof.
  intros Hc. destruct (re_search _ _) as [r|] eqn:E; [|reflexivity].
  exfalso. apply search_from_sound in E as (a & t & b' & -> & Hm).
  apply vanity_match_prefix in Hm as [t' ->].
  exact (contains_false _ _ Hc a t' eq_refl).
Qed.

Lemma plain_name_patterns s :
  ends_with_newline s = false ->
  is_steamid64b s = false ->
  is_profile_url s = false ->
  re_match re_steamid64 s = None /\ re_search re_profile_url s = None.
Proof.
  intros Hnl Hid Hp. split.
  - destruct (re_match _ _) as [r|] eqn:E; [|reflexivity].
    exfalso. apply steamid64_match_sound in E as (d & [Hlen Hdig] & [->| ->]).
    + unfold is_steamid64b in Hid. now rewrite Hlen, Hdig in Hid.
    + now rewrite ends_with_newline_nl in Hnl.
  - destruct (re_search _ _) as [r|] eqn:E; [|reflexivity].
    exfalso. apply search_from_sound in E as (a & t & b' & -> & Hm).
    apply profile_match_sound in Hm as (Hr & [->| ->]).
    + exact (is_profile_url_false _ Hp a r Hr eq_refl).
    + replace (a ++ "profiles/" ++ r ++ nl)
        with ((a ++ "profiles/" ++ r) ++ nl) in Hnl
        by now rewrite !string_app_assoc.
      now rewrite ends_with_newline_nl in Hnl.
Qed.

End ResolverMore.

Lemma get_id_from_vanity_frame w key vanity st :
  draws (snd (get_id_from_vanity w key vanity st)) = draws st
  /\ stdout (snd (get_id_from_vanity w key vanity st)) = stdout st.
Proof.
  unfold get_id_from_vanity, steam_api_call_json, bind, requests_get.
  destruct (http_get w _) as [code [success id|g|a|a]];
    simpl; destruct (code =? 200)%Z; simpl; try (split; reflexivity).
  destruct (success =? 1)%Z; split; reflexivity.
Qed.

(** X1. A string of exactly 17 ASCII digits is returned as it is, and
    the interpreter state is left as it was: no request is sent. *)
Theorem parse_id_input_steamid64 w (d key : string) (st : state) :
  String.length d = 17 ->
  string_forallb Re.is_digit d = true ->
  parse_id_input w d key st = (Ok d, st).
Proof.
  intros Hlen Hdig. unfold parse_id_input.
  destruct (steamid64_match_complete d (conj Hlen Hdig)) as [-> _].
  reflexivity.
Qed.

Lemma parse_id_input_steamid64_witness :
  parse_id_input (sample_world [] [] []) "76561197960287930" "KEY"
    initial_state
  = (Ok "76561197960287930", initial_state).
Proof.
  apply (parse_id_input_steamid64 (sample_world [] [] [])
           "76561197960287930" "KEY" initial_state); reflexivity.
Defined.

(** X2. A newline at the very end of the input is tolerated by [$]: 17
    digits followed by a newline are returned with that newline, whereas
    an input ending in [profiles/], 17 digits and a newline yields the 17
    digits without it.  Neither sends a request. *)
Theorem parse_id_input_trailing_newline w (pre d key : string) (st : state) :
  String.length d = 17 ->
  string_forallb Re.is_digit d = true ->
  parse_id_input w (d ++ nl) key st = (Ok (d ++ nl), st)
  /\ parse_id_input w (pre ++ "profiles/" ++ d ++ nl) key st = (Ok d, st).
Proof.
  intros Hlen Hdig. unfold parse_id_input. split.
  - destruct (steamid64_match_complete d (conj Hlen Hdig)) as [_ ->].
    reflexivity.
  - destruct (profile_url_nl_search pre d (conj Hlen Hdig)) as [-> ->].
    reflexivity.
Qed.

Lemma parse_id_input_trailing_newline_witness :
  parse_id_input (sample_world [] [] []) ("76561197960287930" ++ nl) "KEY"
    initial_state
  = (Ok ("76561197960287930" ++ nl), initial_state)
  /\ parse_id_input (sample_world [] [] [])
       ("steamcommunity.com/profiles/76561197960287930" ++ nl) "KEY"
       initial_state
     = (Ok "76561197960287930", initial_state).
Proof.
  apply (parse_id_input_trailing_newline (sample_world [] [] [])
           "steamcommunity.com/" "76561197960287930" "KEY" initial_state);
    reflexivity.
Defined.

(** X3. An input that does not end in a newline, is not 17 digits, does
    not end in [profiles/] and 17 digits and holds no [id/] is taken, as
    a whole, for a vanity name: [parse_id_input] is the vanity lookup of
    the input. *)
Theorem parse_id_input_plain_name w (s key : string) (st : state) :
  ends_with_newline s = false ->
  is_steamid64b s = false ->
  is_profile_url s = false ->
  contains "id/" s = false ->
  parse_id_input w s key st = get_id_from_vanity w key s st.
Proof.
  intros Hnl Hid Hp Hc. unfold parse_id_input.
  destruct (plain_name_patterns s Hnl Hid Hp) as [-> ->].
  now rewrite no_vanity_url_search.
Qed.

Lemma parse_id_input_plain_name_witness :
  parse_id_input (sample_world [] [] []) "gabelogannewell" "KEY" initial_state
  = (Ok "76561197960287930",
     mkState [vanity_request "KEY" "gabelogannewell"] 0 []).
Proof.
  rewrite (parse_id_input_plain_name (sample_world [] [] [])
             "gabelogannewell" "KEY" initial_state eq_refl eq_refl eq_refl
             eq_refl).
  reflexivity.
Defined.

Lemma parse_id_input_frame w (id_input key : string) (st : state) :
  draws (snd (parse_id_input w id_input key st)) = draws st
  /\ stdout (snd (parse_id_input w id_input key st)) = stdout st
  /\ (requests (snd (parse_id_input w id_input key st)) = requests st
      \/ exists vanity,
           requests (snd (parse_id_input w id_input key st))
           = (requests st ++ [vanity_request key vanity])%list).
Proof.
  unfold parse_id_input.
  destruct (Re.re_match _ _); [simpl; auto|].
  destruct (Re.re_search re_profile_url _); [simpl; auto|].
  destruct (Re.re_search re_vanity_url _) as [vanity|].
  - destruct (get_id_from_vanity_frame w key vanity st) as [Hd Hs].
    split; [exact Hd|]. split; [exact Hs|]. right. exists vanity.
    apply get_id_from_vanity_requests.
  - destruct (get_id_from_vanity_frame w key id_input st) as [Hd Hs].
    split; [exact Hd|]. split; [exact Hs|]. right. exists id_input.
    apply get_id_from_vanity_requests.
Qed.

(** X4. Whatever the input, [parse_id_input] prints nothing, draws no
    random value and sends at most one request, which is then the
    resolution of a vanity name with the given key. *)
Theorem parse_id_input_footprint w (id_input key : string) (st : state) :
  let st' := snd (parse_id_input w id_input key st) in
  draws st' = draws st
  /\ stdout st' = stdout st
  /\ (requests st' = requests st
      \/ exists vanity,
           requests st' = (requests st ++ [vanity_request key vanity])%list).
Proof.
  cbv zeta. apply parse_id_input_frame.
Qed.

(** X5. The vanity lookup returns an identifier exactly when the server
    answers with status 200 and a success indicator of 1, and the
    identifier is then the one of the answer; a status other than 200
    raises the [ValueError] of the API client, a success indicator other
    than 1 the [ValueError] of the lookup. *)
Theorem get_id_from_vanity_result w (key vanity : string) (st : state) :
  let r := http_get w (vanity_request key vanity) in
  (forall steamid,
     fst (get_id_from_vanity w key vanity st) = Ok steamid
     <-> status_code r = 200%Z /\ body r = ResolveVanityURL 1 steamid)
  /\ (status_code r <> 200%Z ->
      fst (get_id_from_vanity w key vanity st)
      = Raise (ValueError "Status code of request is not 200."))
  /\ (forall success steamid,
        status_code r = 200%Z ->
        body r = ResolveVanityURL success steamid ->
        success <> 1%Z ->
        fst (get_id_from_vanity w key vanity st)
        = Raise (ValueError "Failed to get Steam ID from vanity name.")).
Proof.
  intros r. unfold get_id_from_vanity, steam_api_call_json, bind, requests_get.
  fold (vanity_request key vanity). fold r.
  destruct r as [code b]. simpl.
  destruct (Z.eqb_spec code 200) as [->|Hcode]; simpl.
  - split; [|split].
    + intros steamid. destruct b as [success id|g|a|a]; simpl;
        try (split; [discriminate | intros [_ [=]]]).
      destruct (Z.eqb_spec success 1) as [->|Hs]; simpl.
      * split; [intros [= ->]; now split | intros [_ [= ->]]; reflexivity].
      * split; [discriminate | intros [_ [= E _]]; now elim Hs].
    + intros H. now elim H.
    + intros success steamid _ -> Hs.
      destruct (Z.eqb_spec success 1); [contradiction | reflexivity].
  - split; [|split].
    + intros steamid. split; [discriminate | intros [E _]; contradiction].
    + reflexivity.
    + intros success steamid E. contradiction.
Qed.

(** * Further properties of the game selector *)

Lemma get_owned_games_run w key steam_id st :
  let r := http_get w (owned_games_request key steam_id) in
  let st' := mkState (requests st ++ [owned_games_request key steam_id])
               (draws st) (stdout st) in
  get_owned_games w key steam_id st
  = (if negb (status_code r =? 200)%Z
     then Raise (ValueError "Status code of request is not 200.")
     else match body r with
          | OwnedGames games => Ok games
          | _ => Raise (KeyError "games")
          end,
     st').
Proof.
  unfold get_owned_games, steam_api_call_json, bind, requests_get.
  fold (owned_games_request key steam_id).
  destruct (http_get w _) as [code b]. simpl.
  destruct (code =? 200)%Z; simpl; [|reflexivity].
  now destruct b.
Qed.

Lemma random_choice_frame w {A} (seq : list A) (st : state) :
  requests (snd (random_choice w seq st)) = requests st
  /\ stdout (snd (random_choice w seq st)) = stdout st
  /\ (draws (snd (random_choice w seq st)) <= S (draws st))%nat.
Proof.
  unfold random_choice. destruct (nth_error seq _); simpl; repeat split; lia.
Qed.

(** X6. When the identifier cannot be resolved, [pick_random_game] fails
    with the error of the resolution, and the library of no account is
    requested; nothing is printed and nothing is drawn. *)
Theorem pick_random_game_unresolved w key user_id all_games time_played
    st e st1 :
  parse_id_input w user_id key st = (Raise e, st1) ->
  pick_random_game w key user_id all_games time_played st = (Raise e, st1)
  /\ draws st1 = draws st
  /\ stdout st1 = stdout st
  /\ forall steam_id,
       In (owned_games_request key steam_id) (requests st1) ->
       In (owned_games_request key steam_id) (requests st).
Proof.
  intros H. split.
  - unfold pick_random_game, bind. now rewrite H.
  - pose proof (parse_id_input_frame w user_id key st) as F.
    rewrite H in F. simpl in F. destruct F as (Hd & Hs & Hr).
    split; [exact Hd|]. split; [exact Hs|].
    intros steam_id Hin.
    destruct Hr as [E|[vanity E]]; rewrite E in Hin; [exact Hin|].
    apply in_app_or in Hin as [Hin|[Heq|[]]]; [exact Hin | discriminate Heq].
Qed.

Lemma pick_random_game_unresolved_witness :
  let w := mkWorld (fun _ => mkResponse 200 (ResolveVanityURL 42 ""))
             (fun n => n) in
  pick_random_game w "KEY" "nobody" false 0 initial_state
  = (Raise (ValueError "Failed to get Steam ID from vanity name."),
     mkState [vanity_request "KEY" "nobody"] 0 []).
Proof.
  intros w.
  apply (pick_random_game_unresolved w "KEY" "nobody" false 0 initial_state).
  reflexivity.
Defined.

(** X7. Once the identifier is resolved, [pick_random_game] sends exactly
    one more request, for the library of the resolved identifier with the
    given key, and prints nothing; an answer whose status is not 200
    raises the [ValueError] of the API client before anything is
    drawn. *)
Theorem pick_random_game_requests w key user_id all_games time_played
    st steam_id st1 :
  parse_id_input w user_id key st = (Ok steam_id, st1) ->
  let run := pick_random_game w key user_id all_games time_played st in
  requests (snd run)
    = (requests st1 ++ [owned_games_request key steam_id])%list
  /\ stdout (snd run) = stdout st1
  /\ (status_code (http_get w (owned_games_request key steam_id)) <> 200%Z ->
      fst run = Raise (ValueError "Status code of request is not 200.")
      /\ draws (snd run) = draws st1).
Proof.
  intros H run. subst run. unfold pick_random_game, bind. rewrite H.
  rewrite get_owned_games_run.
  destruct (Z.eqb_spec
              (status_code (http_get w (owned_games_request key steam_id))) 200)
    as [E|N]; simpl.
  - destruct (body _) as [s i|games|a|a]; simpl;
      try (split; [reflexivity|]; split; [reflexivity|];
           intros Hn; now elim Hn).
    destruct (random_choice_frame w
                (selectable_games all_games time_played games)
                (mkState (requests st1 ++ [owned_games_request key steam_id])
                   (draws st1) (stdout st1))) as (Hr & Hs & _).
    split; [exact Hr|]. split; [exact Hs|]. intros Hn. now elim Hn.
  - split; [reflexivity|]. split; [reflexivity|]. intros _. now split.
Qed.

Lemma pick_random_game_requests_witness :
  requests (snd (pick_random_game (sample_world [half_life] [] [])
                   "KEY" "gabelogannewell" false 0 initial_state))
  = [vanity_request "KEY" "gabelogannewell";
     owned_games_request "KEY" "76561197960287930"].
Proof.
  destruct (pick_random_game_requests (sample_world [half_life] [] [])
              "KEY" "gabelogannewell" false 0 initial_state
              "76561197960287930"
              (mkState [vanity_request "KEY" "gabelogannewell"] 0 [])
              eq_refl) as (Hr & _).
  exact Hr.
Defined.

(** X8. Every candidate is a game of the library; raising the play-time
    threshold never removes a candidate, and every candidate of a
    threshold is a candidate when all games are asked for. *)
Theorem selectable_games_monotone (all_games : bool) (t t' : Z)
    (owned_games : list Game) :
  incl (selectable_games all_games t owned_games) owned_games
  /\ incl (selectable_games false t owned_games)
       (selectable_games true t' owned_games)
  /\ ((t <= t')%Z ->
      incl (selectable_games false t owned_games)
        (selectable_games false t' owned_games)).
Proof.
  unfold selectable_games. split; [|split].
  - destruct all_games; [apply incl_refl|].
    intros g Hg. now apply filter_In in Hg.
  - intros g Hg. now apply filter_In in Hg.
  - intros Ht g Hg. apply filter_In in Hg as [Hin Hle].
    apply filter_In. split; [exact Hin|].
    apply Z.leb_le in Hle. apply Z.leb_le. lia.
Qed.

(** * Further properties of the achievement selector *)

Lemma sort_keys_state (l : list SchemaItem) (st : state) :
  snd (sort_keys l st) = st.
Proof.
  induction l as [|item l IH]; [reflexivity|].
  simpl. unfold bind, percent_key.
  destruct (item_percent item); [|reflexivity].
  unfold ret at 1. destruct (sort_keys l st) as [[ks|e] st'].
  - simpl in IH. now subst.
  - exact IH.
Qed.

Lemma sorted_state (l : list SchemaItem) (st : state) :
  snd (sorted l st) = st.
Proof.
  unfold sorted, bind. pose proof (sort_keys_state l st) as H.
  destruct (sort_keys l st) as [[ks|e] st']; exact H.
Qed.

Lemma for_each_listing_frame (l : list SchemaItem) : forall st,
  requests (snd (for_each l print_listing_line st)) = requests st
  /\ draws (snd (for_each l print_listing_line st)) = draws st.
Proof.
  induction l as [|item l IH]; intros st; [now split|].
  simpl. unfold bind at 1. unfold print_listing_line, bind, percent_key.
  destruct (item_percent item) as [p|]; [|now split].
  unfold ret at 1, print at 1. simpl.
  exact (IH (mkState (requests st) (draws st)
               (stdout st
                ++ [Listing_line (ascii_replace (item_displayName item)) p]))).
Qed.

Lemma list_and_select_frame w items candidates st :
  requests (snd (list_and_select w items candidates st)) = requests st
  /\ (draws (snd (list_and_select w items candidates st)) <= S (draws st))%nat.
Proof.
  remember (list_and_select w items candidates st) as run eqn:E.
  unfold list_and_select in E. unfold bind at 1 in E.
  pose proof (sorted_state items st) as Hs.
  destruct (sorted items st) as [[s|e] st1]; simpl in Hs; subst st1.
  2:{ subst run. simpl. split; [reflexivity | lia]. }
  unfold bind at 1 in E.
  destruct (for_each_listing_frame (rev s) st) as [Hr Hd].
  destruct (for_each (rev s) print_listing_line st) as [[[]|e] st2];
    simpl in Hr, Hd.
  2:{ subst run. simpl. split; [exact Hr | lia]. }
  unfold bind in E.
  destruct (random_choice_frame w candidates st2) as (Hr2 & _ & Hd2).
  destruct (random_choice w candidates st2) as [[chosen|e] st3];
    subst run; simpl in *; split; congruence || lia.
Qed.

Lemma get_random_achievement_stats_status w key appid cutoff st :
  status_code (http_get w (stats_request appid)) <> 200%Z ->
  get_random_achievement w key appid cutoff st
  = (Raise (ValueError "Status code of request is not 200."),
     mkState (requests st ++ [stats_request appid]) (draws st) (stdout st)).
Proof.
  intros H.
  unfold get_random_achievement, get_achievement_stats_for_game,
    steam_api_call_json, bind, requests_get.
  fold (stats_request appid).
  destruct (http_get w (stats_request appid)) as [code b]. simpl in *.
  now destruct (Z.eqb_spec code 200).
Qed.

Lemma get_random_achievement_schema_status w key appid cutoff st first rest :
  http_get w (stats_request appid)
    = mkResponse 200 (GlobalAchievementPercentages (first :: rest)) ->
  status_code (http_get w (schema_request key appid)) <> 200%Z ->
  get_random_achievement w key appid cutoff st
  = (Raise (ValueError "Status code of request is not 200."),
     fetched st key appid).
Proof.
  intros Hstats H.
  unfold get_random_achievement, get_achievement_stats_for_game,
    get_schema_for_game, steam_api_call_json, bind, requests_get.
  fold (stats_request appid). rewrite Hstats. simpl.
  fold (schema_request key appid).
  destruct (http_get w (schema_request key appid)) as [code b]. simpl in *.
  destruct (Z.eqb_spec code 200); [contradiction|]. simpl.
  unfold raise, fetched. simpl. now rewrite <- app_assoc.
Qed.

(** X9. A status other than 200 makes [get_random_achievement] fail with
    the [ValueError] of the API client, nothing being printed or drawn:
    on the percentages request the schema is then never requested; on the
    schema request both requests have been sent. *)
Theorem get_random_achievement_bad_status w key appid cutoff st :
  (status_code (http_get w (stats_request appid)) <> 200%Z ->
   get_random_achievement w key appid cutoff st
   = (Raise (ValueError "Status code of request is not 200."),
      mkState (requests st ++ [stats_request appid]) (draws st) (stdout st)))
  /\ (forall first rest,
        http_get w (stats_request appid)
          = mkResponse 200 (GlobalAchievementPercentages (first :: rest)) ->
        status_code (http_get w (schema_request key appid)) <> 200%Z ->
        get_random_achievement w key appid cutoff st
        = (Raise (ValueError "Status code of request is not 200."),
           fetched st key appid)).
Proof.
  split.
  - apply get_random_achievement_stats_status.
  - intros first rest. apply get_random_achievement_schema_status.
Qed.

Lemma get_random_achievement_bad_status_witness :
  let w := mkWorld (fun _ => mkResponse 403 (OwnedGames [])) (fun n => n) in
  get_random_achievement w "KEY" 440 80 initial_state
  = (Raise (ValueError "Status code of request is not 200."),
     mkState [stats_request 440] 0 []).
Proof.
  intros w.
  apply (proj1 (get_random_achievement_bad_status w "KEY" 440 80
                  initial_state)).
  discriminate.
Defined.

(** X10. When the first percentage is zero (of either sign),
    [get_random_achievement] raises [ZeroDivisionError]; the schema has
    been requested by then, and nothing has been printed or drawn. *)
Theorem get_random_achievement_zero_division
    w key appid cutoff first rest sch st :
  http_get w (stats_request appid)
    = mkResponse 200 (GlobalAchievementPercentages (first :: rest)) ->
  http_get w (schema_request key appid) = mkResponse 200 (SchemaForGame sch) ->
  stat_percent first = 0%float \/ stat_percent first = (-0)%float ->
  get_random_achievement w key appid cutoff st
  = (Raise (ZeroDivisionError "float division by zero"), fetched st key appid).
Proof.
  intros Hstats Hschema Hz.
  apply (get_random_achievement_zero _ _ _ _ _ _ _ Hstats Hschema).
  destruct Hz as [-> | ->]; reflexivity.
Qed.

Lemma get_random_achievement_zero_division_witness :
  get_random_achievement
    (sample_world [] [mkStat "A" (-0); stat_B] [schema_A]) "KEY" 440 80
    initial_state
  = (Raise (ZeroDivisionError "float division by zero"),
     fetched initial_state "KEY" 440).
Proof.
  apply (get_random_achievement_zero_division
           (sample_world [] [mkStat "A" (-0); stat_B] [schema_A])
           "KEY" 440 80 (mkStat "A" (-0)) [stat_B] [schema_A] initial_state
           eq_refl eq_refl).
  now right.
Defined.

(** X11. With both lists fetched, a first percentage that is not zero
    and every schema entry named by a statistic: when no statistic
    reaches the cutoff, [get_random_achievement] fails with the
    [IndexError] of [random.choice], and it does so after the whole
    listing has been printed, which is the reverse of the list [sorted]
    returns for the enriched entries, one line per schema entry; nothing
    is drawn. *)
Theorem get_random_achievement_no_candidate
    w key appid cutoff first rest sch st :
  http_get w (stats_request appid)
    = mkResponse 200 (GlobalAchievementPercentages (first :: rest)) ->
  http_get w (schema_request key appid) = mkResponse 200 (SchemaForGame sch) ->
  (stat_percent first =? 0)%float = false ->
  (forall a, In a sch ->
     exists s, In s (first :: rest) /\ stat_name s = schema_name a) ->
  candidates_of (first :: rest) (100 / stat_percent first) cutoff = [] ->
  exists sorted_by_unlocked,
    sorted (map (enriched_entry (first :: rest)) (map item_of_schema sch))
      (fetched st key appid)
    = (Ok sorted_by_unlocked, fetched st key appid)
    /\ Permutation sorted_by_unlocked
         (map (enriched_entry (first :: rest)) (map item_of_schema sch))
    /\ List.length sorted_by_unlocked = List.length sch
    /\ get_random_achievement w key appid cutoff st
       = (Raise (IndexError "Cannot choose from an empty sequence"),
          mkState (requests (fetched st key appid)) (draws st)
            (stdout st ++ map listing_line (rev sorted_by_unlocked))).
Proof.
  intros Hstats Hschema Hnz Hall Hempty.
  rewrite (get_random_achievement_run _ _ _ _ _ _ _ Hstats Hschema _ Hnz).
  rewrite Hempty.
  set (items := map (enriched_entry (first :: rest)) (map item_of_schema sch)).
  pose proof (enriched_all_percent _ _ Hall) as Hitems. fold items in Hitems.
  destruct (sorted_ok items (fetched st key appid) Hitems) as (s & Hs & Hp).
  exists s. split; [exact Hs|]. split; [exact Hp|]. split.
  { rewrite (Permutation_length Hp). unfold items. now rewrite !length_map. }
  unfold list_and_select. unfold bind at 1. rewrite Hs.
  unfold bind at 1. rewrite for_each_listing.
  - unfold bind. now rewrite random_choice_nil.
  - apply Forall_rev. revert Hitems. apply Permutation_Forall. now symmetry.
Qed.

Lemma get_random_achievement_no_candidate_witness :
  exists sorted_by_unlocked,
    sorted (map (enriched_entry [stat_A; stat_B])
              (map item_of_schema [schema_B; schema_A]))
      (fetched initial_state "KEY" 440)
    = (Ok sorted_by_unlocked, fetched initial_state "KEY" 440)
    /\ Permutation sorted_by_unlocked
         (map (enriched_entry [stat_A; stat_B])
            (map item_of_schema [schema_B; schema_A]))
    /\ List.length sorted_by_unlocked = 2%nat
    /\ get_random_achievement
         (sample_world [] [stat_A; stat_B] [schema_B; schema_A]) "KEY" 440 200
         initial_state
       = (Raise (IndexError "Cannot choose from an empty sequence"),
          mkState (requests (fetched initial_state "KEY" 440)) 0
            ([] ++ map listing_line (rev sorted_by_unlocked))).
Proof.
  apply (get_random_achievement_no_candidate
           (sample_world [] [stat_A; stat_B] [schema_B; schema_A])
           "KEY" 440 200 stat_A [stat_B] [schema_B; schema_A]
           initial_state eq_refl eq_refl eq_refl).
  - intros a [<-|[<-|[]]].
    + exists stat_B. split; [right; now left | reflexivity].
    + exists stat_A. split; [now left | reflexivity].
  - reflexivity.
Defined.

Lemma get_random_achievement_stats_shape w key appid cutoff st b :
  http_get w (stats_request appid) = mkResponse 200 b ->
  (forall l, b <> GlobalAchievementPercentages l) ->
  get_random_achievement w key appid cutoff st
  = (Raise (KeyError "achievementpercentages"),
     mkState (requests st ++ [stats_request appid]) (draws st) (stdout st)).
Proof.
  intros Hs Hb.
  unfold get_random_achievement, get_achievement_stats_for_game,
    steam_api_call_json, bind, requests_get.
  fold (stats_request appid). rewrite Hs.
  destruct b as [s i|g|l|a]; try reflexivity. now elim (Hb l).
Qed.

Lemma get_random_achievement_schema_shape
    w key appid cutoff st first rest b :
  http_get w (stats_request appid)
    = mkResponse 200 (GlobalAchievementPercentages (first :: rest)) ->
  http_get w (schema_request key appid) = mkResponse 200 b ->
  (forall l, b <> SchemaForGame l) ->
  get_random_achievement w key appid cutoff st
  = (Raise (KeyError "game"), fetched st key appid).
Proof.
  intros Hs Hsch Hb.
  unfold get_random_achievement, get_achievement_stats_for_game,
    get_schema_for_game, steam_api_call_json, bind, requests_get.
  fold (stats_request appid). rewrite Hs. simpl.
  fold (schema_request key appid). rewrite Hsch.
  unfold fetched.
  destruct b as [s i|g|l|a]; simpl; rewrite <- ?app_assoc; try reflexivity.
  now elim (Hb a).
Qed.

(** X12. Whatever the server answers, [get_random_achievement] sends the
    percentages request, then at most the schema request and no other,
    and draws at most one random value. *)
Theorem get_random_achievement_footprint w key appid cutoff st :
  let st' := snd (get_random_achievement w key appid cutoff st) in
  (requests st' = (requests st ++ [stats_request appid])%list
   \/ requests st'
      = (requests st ++ [stats_request appid; schema_request key appid])%list)
  /\ (draws st' <= S (draws st))%nat.
Proof.
  destruct (http_get w (stats_request appid)) as [code b] eqn:Hs.
  destruct (Z.eqb_spec code 200) as [->|Hcode].
  2:{ rewrite (get_random_achievement_stats_status w key appid cutoff st)
        by (rewrite Hs; exact Hcode).
      simpl. split; [now left | lia]. }
  destruct b as [s i|g|[|first rest]|a].
  1,2,5: rewrite (get_random_achievement_stats_shape _ _ _ _ _ _ Hs)
           by (intros l; discriminate);
         simpl; (split; [now left | lia]).
  - rewrite get_random_achievement_none by exact Hs. simpl.
    split; [now left | lia].
  - destruct (http_get w (schema_request key appid)) as [code2 b2] eqn:Hsch.
    destruct (Z.eqb_spec code2 200) as [->|Hcode2].
    2:{ rewrite (get_random_achievement_schema_status w key appid cutoff st
                   first rest Hs) by (rewrite Hsch; exact Hcode2).
        simpl. split; [now right | lia]. }
    destruct b2 as [s i|g|a|sch].
    1,2,3: rewrite (get_random_achievement_schema_shape _ _ _ _ _ _ _ _
                      Hs Hsch) by (intros l; discriminate);
           simpl; (split; [now right | lia]).
    destruct (stat_percent first =? 0)%float eqn:Hz.
    + rewrite (get_random_achievement_zero _ _ _ _ _ _ _ Hs Hsch _ Hz).
      simpl. split; [now right | lia].
    + rewrite (get_random_achievement_run _ _ _ _ _ _ _ Hs Hsch _ Hz).
      destruct (list_and_select_frame w
                  (map (enriched_entry (first :: rest)) (map item_of_schema sch))
                  (candidates_of (first :: rest) (100 / stat_percent first) cutoff)
                  (fetched st key appid)) as [Hr Hd].
      cbv zeta. rewrite Hr. split; [now right | exact Hd].
Qed.

(** * The order of binary64 floats *)

Module Binary64Order.

Local Open Scope Z_scope.

Lemma SFcompare_antisym (a b : spec_float) :
  SFcompare b a = option_map CompOpp (SFcompare a b).
Proof.
  destruct a as [sa|sa| |sa ma ea], b as [sb|sb| |sb mb eb];
    try destruct sa; try destruct sb; try reflexivity.
  - simpl. rewrite (Z.compare_antisym ea eb).
    change (Pos.compare_cont Eq mb ma) with (Pos.compare mb ma).
    change (Pos.compare_cont Eq ma mb) with (Pos.compare ma mb).
    rewrite (Pos.compare_antisym ma mb).
    destruct (ea ?= eb); simpl; rewrite ?CompOpp_involutive; reflexivity.
  - simpl. rewrite (Z.compare_antisym ea eb).
    change (Pos.compare_cont Eq mb ma) with (Pos.compare mb ma).
    change (Pos.compare_cont Eq ma mb) with (Pos.compare ma mb).
    rewrite (Pos.compare_antisym ma mb).
    destruct (ea ?= eb); simpl; rewrite ?CompOpp_involutive; reflexivity.
Qed.

Lemma SFltb_asym (a b : spec_float) :
  SFltb a b = true -> SFltb b a = false.
Proof.
  unfold SFltb. rewrite (SFcompare_antisym a b).
  destruct (SFcompare a b) as [[]|]; simpl; congruence.
Qed.

Lemma SFltb_false_leb (a b : spec_float) :
  a <> S754_nan -> b <> S754_nan ->
  SFltb a b = false -> SFleb b a = true.
Proof.
  intros Ha Hb. unfold SFltb, SFleb. rewrite (SFcompare_antisym a b).
  destruct (SFcompare a b) as [[]|] eqn:E; simpl; try congruence.
  destruct a, b; simpl in E; congruence.
Qed.

Lemma SFleb_trans (a b c : spec_float) :
  SFleb a b = true -> SFleb b c = true -> SFleb a c = true.
Proof.
  unfold SFleb, SFcompare.
  destruct a as [sa|sa| |sa ma ea], b as [sb|sb| |sb mb eb],
    c as [sc|sc| |sc mc ec];
    try destruct sa; try destruct sb; try destruct sc;
    try reflexivity; try discriminate.
  all: change (Pos.compare_cont Eq ma mb) with (Pos.compare ma mb);
    change (Pos.compare_cont Eq mb mc) with (Pos.compare mb mc);
    change (Pos.compare_cont Eq ma mc) with (Pos.compare ma mc);
    destruct (Z.compare_spec ea eb), (Z.compare_spec eb ec),
      (Z.compare_spec ea ec);
    try reflexivity; try discriminate; try (exfalso; lia);
    destruct (Pos.compare_spec ma mb), (Pos.compare_spec mb mc),
      (Pos.compare_spec ma mc);
    try reflexivity; try discriminate; exfalso; lia.
Qed.

Lemma leb_trans (x y z : float) :
  (x <=? y)%float = true -> (y <=? z)%float = true ->
  (x <=? z)%float = true.
Proof. rewrite !leb_spec. apply SFleb_trans. Qed.

Lemma ltb_asym (x y : float) :
  (x <? y)%float = true -> (y <? x)%float = false.
Proof. rewrite !ltb_spec. apply SFltb_asym. Qed.

Lemma eqb_self_not_nan (x : float) :
  (x =? x)%float = true -> Prim2SF x <> S754_nan.
Proof.
  rewrite eqb_spec. intros H E. rewrite E in H. discriminate.
Qed.

Lemma ltb_false_leb (x y : float) :
  (x =? x)%float = true -> (y =? y)%float = true ->
  (x <? y)%float = false -> (y <=? x)%float = true.
Proof.
  intros Hx Hy. rewrite ltb_spec, leb_spec.
  apply SFltb_false_leb; now apply eqb_self_not_nan.
Qed.

End Binary64Order.

(** * The listing and the cutoff *)

Lemma sort_keys_keyed (l : list SchemaItem) (st : state) :
  Forall (fun item => item_percent item <> None) l ->
  sort_keys l st = (Ok (map keyed l), st).
Proof.
  induction 1 as [|item l Hitem _ IH]; [reflexivity|].
  simpl. unfold bind, percent_key, keyed at 1, key_of.
  destruct (item_percent item) as [p|]; [|contradiction].
  unfold ret at 1. now rewrite IH.
Qed.

Lemma insert_by_key_sorted x l :
  Sorted key_le l -> Sorted key_le (insert_by_key x l).
Proof.
  induction 1 as [|y l Hs IH Hhd]; simpl.
  - repeat constructor.
  - destruct (fst x <? fst y)%float eqn:E.
    + constructor; [now constructor|]. constructor.
      unfold key_le. now apply Binary64Order.ltb_asym.
    + constructor; [exact IH|].
      destruct l as [|z l]; simpl.
      * constructor. exact E.
      * destruct (fst x <? fst z)%float; constructor;
          [exact E | now inversion Hhd].
Qed.

Lemma insertion_sort_sorted ks : forall acc,
  Sorted key_le acc ->
  Sorted key_le (fold_left (fun acc x => insert_by_key x acc) ks acc).
Proof.
  induction ks as [|x ks IH]; intros acc H; simpl; [exact H|].
  apply IH. now apply insert_by_key_sorted.
Qed.

Lemma Sorted_adjacent {A} (R : A -> A -> Prop) (l : list A) :
  Sorted R l ->
  forall before x y after, l = (before ++ x :: y :: after)%list -> R x y.
Proof.
  induction 1 as [|z l Hs IH Hhd]; intros before x y after E.
  - destruct before; discriminate.
  - destruct before as [|b before]; simpl in E.
    + injection E as -> ->. now inversion Hhd.
    + injection E as _ E. exact (IH _ _ _ _ E).
Qed.

Lemma enriched_percent_from_stats stats a p :
  (exists s, In s stats /\ stat_name s = schema_name a) ->
  item_percent (enriched_entry stats (item_of_schema a)) = Some p ->
  exists s, In s stats /\ p = stat_percent s.
Proof.
  intros (s0 & Hs0 & Hn0). unfold enriched_entry. simpl.
  destruct (find _ stats) as [s|] eqn:Ef; simpl.
  - intros [= <-]. apply find_some in Ef as [Hin _]. now exists s.
  - pose proof (find_none _ _ Ef s0 Hs0) as Hf. simpl in Hf.
    now rewrite Hn0, String.eqb_refl in Hf.
Qed.

(** X13. With both lists fetched, a first percentage that is not zero,
    every schema entry named by a statistic and no NaN among the
    percentages, the listing [get_random_achievement] prints has one line
    per schema entry and is in descending order: no line shows a
    percentage above the one of the line before it. *)
Theorem listing_descending w key appid cutoff first rest sch st :
  http_get w (stats_request appid)
    = mkResponse 200 (GlobalAchievementPercentages (first :: rest)) ->
  http_get w (schema_request key appid) = mkResponse 200 (SchemaForGame sch) ->
  (stat_percent first =? 0)%float = false ->
  (forall a, In a sch ->
     exists s, In s (first :: rest) /\ stat_name s = schema_name a) ->
  Forall (fun s => not_nan (stat_percent s) = true) (first :: rest) ->
  exists lines,
    stdout (snd (get_random_achievement w key appid cutoff st))
      = (stdout st ++ lines)%list
    /\ List.length lines = List.length sch
    /\ descending_listing lines.
Proof.
  intros Hstats Hschema Hnz Hall Hnan.
  rewrite (get_random_achievement_run _ _ _ _ _ _ _ Hstats Hschema _ Hnz).
  set (items := map (enriched_entry (first :: rest)) (map item_of_schema sch)).
  set (candidates := candidates_of _ _ _).
  pose proof (enriched_all_percent _ _ Hall) as Hitems. fold items in Hitems.
  set (sks := fold_left (fun acc x => insert_by_key x acc) (map keyed items) []).
  assert (Hperm : Permutation sks (map keyed items))
    by apply (insertion_sort_perm (map keyed items) []).
  assert (Hsorted : Sorted key_le sks)
    by (apply insertion_sort_sorted; constructor).
  set (f := fun ki : float * SchemaItem =>
              Listing_line (ascii_replace (item_displayName (snd ki))) (fst ki)).
  assert (Hkeys : Forall (fun ki => ki = keyed (snd ki)) sks).
  { apply (Permutation_Forall (Permutation_sym Hperm)).
    apply Forall_map, Forall_forall. reflexivity. }
  assert (Hlines : map listing_line (rev (map snd sks)) = map f (rev sks)).
  { rewrite <- map_rev, map_map. apply map_ext_in.
    intros ki Hin. apply in_rev in Hin.
    rewrite Forall_forall in Hkeys. rewrite (Hkeys ki Hin) at 2.
    reflexivity. }
  exists (map f (rev sks)).
  assert (Hrun : stdout (snd (list_and_select w items candidates
                                (fetched st key appid)))
                 = (stdout st ++ map f (rev sks))%list).
  { unfold list_and_select. unfold bind at 1. unfold sorted, bind at 1.
    rewrite sort_keys_keyed by exact Hitems. fold sks. unfold ret at 1.
    unfold bind at 1. rewrite for_each_listing.
    - rewrite Hlines. unfold bind, random_choice.
      destruct (nth_error candidates _); reflexivity.
    - apply Forall_rev.
      apply (Permutation_Forall
               (Permutation_sym (Permutation_map snd Hperm))).
      rewrite map_map. simpl. now rewrite map_id. }
  split; [exact Hrun|]. split.
  - rewrite length_map, length_rev, (Permutation_length Hperm).
    unfold items. now rewrite !length_map.
  - intros before n1 p1 n2 p2 after E.
    apply map_eq_app in E as (b' & r' & Er & _ & E).
    apply map_eq_cons in E as (k1 & r'' & -> & E1 & E).
    apply map_eq_cons in E as (k2 & a' & -> & E2 & _).
    injection E1 as _ <-. injection E2 as _ <-.
    assert (Es : sks = (rev a' ++ k2 :: k1 :: rev b')%list).
    { rewrite <- (rev_involutive sks), Er, rev_app_distr. simpl.
      now rewrite <- !app_assoc. }
    pose proof (Sorted_adjacent _ _ Hsorted _ _ _ _ Es) as Hle.
    unfold key_le in Hle.
    assert (Hk : forall k, In k sks -> not_nan (fst k) = true).
    { intros k Hk.
      apply (Permutation_in _ Hperm) in Hk.
      apply in_map_iff in Hk as (item & <- & Hitem).
      unfold items in Hitem. rewrite map_map in Hitem.
      apply in_map_iff in Hitem as (a & <- & Ha).
      simpl. unfold key_of.
      destruct (item_percent _) as [p|] eqn:Ep; [|reflexivity].
      apply (enriched_percent_from_stats _ _ _ (Hall a Ha)) in Ep
        as (s0 & Hs0 & ->).
      rewrite Forall_forall in Hnan. now apply Hnan. }
    apply Binary64Order.ltb_false_leb; [| |exact Hle];
      apply Hk; rewrite Es; apply in_or_app; right; simpl; auto.
Qed.

Lemma listing_descending_witness :
  stdout (snd (get_random_achievement
                 (sample_world [] [stat_A; stat_B] [schema_B; schema_A])
                 "KEY" 440 80 initial_state))
  = [Listing_line "Alpha" 50; Listing_line "Beta" 10]
  /\ descending_listing [Listing_line "Alpha" 50; Listing_line "Beta" 10].
Proof.
  destruct (listing_descending
              (sample_world [] [stat_A; stat_B] [schema_B; schema_A])
              "KEY" 440 80 stat_A [stat_B] [schema_B; schema_A] initial_state
              eq_refl eq_refl eq_refl) as (lines & Hout & _ & Hdesc).
  - intros a [<-|[<-|[]]].
    + exists stat_B. split; [right; now left | reflexivity].
    + exists stat_A. split; [now left | reflexivity].
  - repeat constructor.
  - split; [reflexivity|].
    change (stdout (snd (get_random_achievement
                           (sample_world [] [stat_A; stat_B]
                              [schema_B; schema_A])
                           "KEY" 440 80 initial_state)))
      with [Listing_line "Alpha" 50; Listing_line "Beta" 10] in Hout.
    simpl in Hout. now rewrite Hout.
Defined.

(** X14. Every candidate is one of the fetched statistics, and lowering
    the cutoff never removes a candidate. *)
Theorem candidates_of_monotone (achievements : list Stat)
    (modifier cutoff cutoff' : float) :
  (cutoff' <=? cutoff)%float = true ->
  incl (candidates_of achievements modifier cutoff) achievements
  /\ incl (candidates_of achievements modifier cutoff)
       (candidates_of achievements modifier cutoff').
Proof.
  intros Hc. unfold candidates_of. split.
  - intros a Ha. now apply filter_In in Ha.
  - intros a Ha. apply filter_In in Ha as [Hin Hle].
    apply filter_In. split; [exact Hin|].
    exact (Binary64Order.leb_trans _ _ _ Hc Hle).
Qed.

Lemma candidates_of_monotone_witness :
  incl (candidates_of [stat_A; stat_B] 2 80) (candidates_of [stat_A; stat_B] 2 20).
Proof.
  apply (candidates_of_monotone [stat_A; stat_B] 2 80 20). reflexivity.
Defined.

(** * The display names, the enrichment and [main] *)

(** X15. The name shown in a listing line holds 7-bit characters only;
    [ascii_replace] leaves a string of 7-bit characters as it is and
    never makes a string longer. *)
Theorem ascii_replace_ascii (s : string) :
  string_forallb is_ascii (ascii_replace s) = true
  /\ (string_forallb is_ascii s = true -> ascii_replace s = s)
  /\ (String.length (ascii_replace s) <= String.length s)%nat
  /\ forall item,
       item_displayName item = s ->
       exists p,
         listing_line item = Listing_line (ascii_replace s) p.
Proof.
  split; [|split; [|split]].
  - induction s as [|c s IH]; [reflexivity|].
    simpl. destruct (nat_of_ascii c <? 128)%nat eqn:Hc.
    + simpl. unfold is_ascii at 1. now rewrite Hc.
    + destruct (nat_of_ascii c <? 192)%nat; [exact IH|].
      simpl. exact IH.
  - induction s as [|c s IH]; [reflexivity|].
    simpl. intros H. apply andb_true_iff in H as [Hc Hs].
    unfold is_ascii in Hc. rewrite Hc. now rewrite IH.
  - induction s as [|c s IH]; [simpl; lia|].
    simpl. destruct (nat_of_ascii c <? 128)%nat; [simpl; lia|].
    destruct (nat_of_ascii c <? 192)%nat; simpl; lia.
  - intros item <-. unfold listing_line. now eexists.
Qed.

Lemma enriched_entry_idempotent stats item :
  enriched_entry stats (enriched_entry stats item) = enriched_entry stats item.
Proof.
  unfold enriched_entry at 2.
  destruct (find _ stats) as [s|] eqn:Ef.
  - unfold enriched_entry. simpl. now rewrite Ef.
  - unfold enriched_entry. now rewrite Ef.
Qed.

(** X16. The enrichment is idempotent: running the two loops again on
    their own result changes nothing. *)
Theorem enrich_idempotent (l : locals) : enrich (enrich l) = enrich l.
Proof.
  rewrite !enrich_spec. simpl. rewrite map_map. f_equal.
  apply map_ext. intros item. apply enriched_entry_idempotent.
Qed.

(** X17. Without the achievement option, [main] prints the application
    identifier and the name of the game [pick_random_game] returned and
    does nothing else: no further request, no further draw.  When
    [pick_random_game] fails, with or without the option, [main] fails
    with the same error and prints nothing. *)
Theorem main_game_only w (a : args) (key : string) (st : state) :
  achievement a = false ->
  (forall game st1,
     pick_random_game w key (user_id a) (all_games a) (time_played a) st
       = (Ok game, st1) ->
     main w a key st
     = (Ok tt,
        mkState (requests st1) (draws st1)
          (stdout st1 ++ [App_id_line (appid game); Text (game_name game)])))
  /\ (forall e st1,
        pick_random_game w key (user_id a) (all_games a) (time_played a) st
          = (Raise e, st1) ->
        main w a key st = (Raise e, st1)).
Proof.
  intros Hflag. split.
  - intros game st1 H. unfold main, bind. rewrite H, Hflag.
    unfold print, ret. simpl. now rewrite <- app_assoc.
  - intros e st1 H. unfold main, bind. now rewrite H.
Qed.

Lemma main_game_only_witness :
  main (sample_world [portal] [] []) args_game_only "KEY" initial_state
  = (Ok tt,
     mkState [owned_games_request "KEY" "76561197960287930"] 1
       [App_id_line 400; Text "Portal"]).
Proof.
  apply (proj1 (main_game_only (sample_world [portal] [] []) args_game_only
                  "KEY" initial_state eq_refl) portal
           (mkState [owned_games_request "KEY" "76561197960287930"] 1 [])).
  reflexivity.
Defined.

(** X18. With the achievement option, for a game whose percentages list
    is empty, [main] prints the application identifier, the name, the
    report that there are no achievements and then a challenge line whose
    achievement is [None]; the schema is not requested. *)
Theorem main_no_achievements w (a : args) (key : string) (st : state)
    game st1 :
  achievement a = true ->
  pick_random_game w key (user_id a) (all_games a) (time_played a) st
    = (Ok game, st1) ->
  http_get w (stats_request (appid game))
    = mkResponse 200 (GlobalAchievementPercentages []) ->
  main w a key st
  = (Ok tt,
     mkState (requests st1 ++ [stats_request (appid game)]) (draws st1)
       (stdout st1
        ++ [App_id_line (appid game); Text (game_name game);
            Text "No achievements for this game"; Challenge_line None])).
Proof.
  intros Hflag H Hstats. unfold main. unfold bind at 1. rewrite H, Hflag.
  unfold bind at 1. unfold print at 1. unfold bind at 1. unfold print at 1.
  unfold bind. rewrite get_random_achievement_none by exact Hstats.
  unfold print. simpl. now rewrite <- !app_assoc.
Qed.

Lemma main_no_achievements_witness :
  main (sample_world [portal] [] [schema_A]) args_with_achievement "KEY"
    initial_state
  = (Ok tt,
     mkState [owned_games_request "KEY" "76561197960287930";
              stats_request 400] 1
       [App_id_line 400; Text "Portal";
        Text "No achievements for this game"; Challenge_line None]).
Proof.
  apply (main_no_achievements (sample_world [portal] [] [schema_A])
           args_with_achievement "KEY" initial_state portal
           (mkState [owned_games_request "KEY" "76561197960287930"] 1 []));
    reflexivity.
Defined.

(** X19. With the achievement option, [main] asks for a challenge with
    the cutoff 80.  When both lists are fetched, the first percentage is
    finite and above zero and every schema entry is named by a
    statistic, the run succeeds: after the identifier and the name it
    prints the listing, the reverse of the list [sorted] returns for the
    enriched entries, and then the challenge line; the challenge is the
    display name [find_display_name] finds for the statistic that the
    draw selects among those reaching the cutoff 80; the two achievement
    requests are sent and exactly one more value is drawn. *)
Theorem main_challenge w (a : args) (key : string) (st : state)
    game st1 first rest sch :
  achievement a = true ->
  pick_random_game w key (user_id a) (all_games a) (time_played a) st
    = (Ok game, st1) ->
  http_get w (stats_request (appid game))
    = mkResponse 200 (GlobalAchievementPercentages (first :: rest)) ->
  http_get w (schema_request key (appid game))
    = mkResponse 200 (SchemaForGame sch) ->
  (0 <? stat_percent first)%float = true ->
  (stat_percent first <? infinity)%float = true ->
  (forall s, In s sch ->
     exists t, In t (first :: rest) /\ stat_name t = schema_name s) ->
  exists sorted_by_unlocked chosen,
    sorted (map (enriched_entry (first :: rest)) (map item_of_schema sch)) st1
    = (Ok sorted_by_unlocked, st1)
    /\ Permutation sorted_by_unlocked
         (map (enriched_entry (first :: rest)) (map item_of_schema sch))
    /\ nth_error
         (candidates_of (first :: rest) (100 / stat_percent first) 80)
         (random_bits w (draws st1)
          mod List.length
                (candidates_of (first :: rest) (100 / stat_percent first) 80))
       = Some chosen
    /\ main w a key st
       = (Ok tt,
          mkState
            (requests st1
             ++ [stats_request (appid game); schema_request key (appid game)])
            (S (draws st1))
            (stdout st1
             ++ [App_id_line (appid game); Text (game_name game)]
             ++ map listing_line (rev sorted_by_unlocked)
             ++ [Challenge_line
                   (Some (find_display_name
                            (map (enriched_entry (first :: rest))
                               (map item_of_schema sch))
                            (stat_name chosen)))])).
Proof.
  intros Hflag H Hstats Hschema Hpos Hfin Hall.
  set (candidates :=
         candidates_of (first :: rest) (100 / stat_percent first) 80).
  assert (Hne : candidates <> []).
  { assert (Hin : In first candidates).
    { unfold candidates, candidates_of. apply filter_In.
      split; [now left|].
      now apply Binary64.normalised_percent_reaches. }
    intros E. rewrite E in Hin. elim Hin. }
  set (items := map (enriched_entry (first :: rest)) (map item_of_schema sch)).
  pose proof (enriched_all_percent _ _ Hall) as Hitems. fold items in Hitems.
  set (st2 := mkState (requests st1) (draws st1)
                (stdout st1
                 ++ [App_id_line (appid game); Text (game_name game)])).
  assert (Hrun : get_random_achievement w key (appid game) 80 st2
                 = list_and_select w items candidates
                     (fetched st2 key (appid game)))
    by exact (get_random_achievement_run _ _ _ _ _ _ _ Hstats Hschema _
                (Binary64.positive_not_zero _ Hpos)).
  destruct (sorted_ok items st1 Hitems) as (s & Hs & Hp).
  assert (Hs2 : sorted items (fetched st2 key (appid game))
                = (Ok s, fetched st2 key (appid game))).
  { destruct (sorted_ok items (fetched st2 key (appid game)) Hitems)
      as (s' & Hs' & _).
    pose proof (f_equal fst Hs) as E1. pose proof (f_equal fst Hs') as E2.
    unfold sorted, bind in E1, E2, Hs'.
    rewrite sort_keys_keyed in E1, E2 by exact Hitems.
    simpl in E1, E2. rewrite E1 in E2. injection E2 as <-. exact Hs'. }
  unfold list_and_select in Hrun. unfold bind at 1 in Hrun.
  rewrite Hs2 in Hrun. unfold bind at 1 in Hrun.
  rewrite for_each_listing in Hrun
    by (apply Forall_rev; revert Hitems; apply Permutation_Forall;
        now symmetry).
  set (st3 := mkState _ _ _) in Hrun.
  destruct (random_choice_ok w candidates st3 Hne) as (chosen & Hnth & _ & Hc).
  unfold bind in Hrun. rewrite Hc in Hrun. unfold ret in Hrun.
  exists s, chosen.
  split; [exact Hs|]. split; [exact Hp|]. split; [exact Hnth|].
  unfold main. unfold bind at 1. rewrite H, Hflag.
  unfold bind at 1. unfold print at 1. unfold bind at 1. unfold print at 1.
  unfold bind.
  replace (mkState _ _ _) with st2
    by (unfold st2; simpl; now rewrite <- app_assoc).
  rewrite Hrun. unfold print. simpl. now rewrite <- !app_assoc.
Qed.

Lemma main_challenge_witness :
  exists sorted_by_unlocked chosen,
    sorted (map (enriched_entry [stat_A; stat_B])
              (map item_of_schema [schema_B; schema_A]))
      (mkState [owned_games_request "KEY" "76561197960287930"] 1 [])
    = (Ok sorted_by_unlocked,
       mkState [owned_games_request "KEY" "76561197960287930"] 1 [])
    /\ Permutation sorted_by_unlocked
         (map (enriched_entry [stat_A; stat_B])
            (map item_of_schema [schema_B; schema_A]))
    /\ nth_error
         (candidates_of [stat_A; stat_B] (100 / stat_percent stat_A) 80)
         (1 mod List.length
                  (candidates_of [stat_A; stat_B]
                     (100 / stat_percent stat_A) 80))
       = Some chosen
    /\ main (sample_world [portal] [stat_A; stat_B] [schema_B; schema_A])
         args_with_achievement "KEY" initial_state
       = (Ok tt,
          mkState
            ([owned_games_request "KEY" "76561197960287930"]
             ++ [stats_request 400; schema_request "KEY" 400])
            2
            ([] ++ [App_id_line 400; Text "Portal"]
             ++ map listing_line (rev sorted_by_unlocked)
             ++ [Challenge_line
                   (Some (find_display_name
                            (map (enriched_entry [stat_A; stat_B])
                               (map item_of_schema [schema_B; schema_A]))
                            (stat_name chosen)))])).
Proof.
  apply (main_challenge
           (sample_world [portal] [stat_A; stat_B] [schema_B; schema_A])
           args_with_achievement "KEY" initial_state portal
           (mkState [owned_games_request "KEY" "76561197960287930"] 1 [])
           stat_A [stat_B] [schema_B; schema_A]
           eq_refl eq_refl eq_refl eq_refl eq_refl eq_refl).
  intros s [<-|[<-|[]]].
  - exists stat_B. split; [right; now left | reflexivity].
  - exists stat_A. split; [now left | reflexivity].
Defined.
